(** * Grist plugin API: column mapping, mapping cache, handshake, dispatch

    A shallow embedding of [app/plugin/grist-plugin-api.ts]:
    - [mapColumnNames] / [mapColumnNamesBack] (the record renaming engine),
    - [getMappingsIfChanged] (the coalescing mapping cache),
    - [ready] / [getSelectedTableId] (the table binding handshake),
    - the [onRecords] message handler (columnar table to row records).

    JavaScript objects are association lists in insertion order, property
    writes update in place or append, property reads of a missing key give
    [VUndefined].  Column names are assumed not to collide with names
    inherited from [Object.prototype] and not to be array indices (which
    JavaScript enumerates first); strings are sequences of code units. *)

From Stdlib Require Import ZArith Ascii String DecimalString.
From stdpp Require Import base tactics option list strings sorting.

Local Open Scope string_scope.
Local Open Scope list_scope.

Set Warnings "-register-all".

(** ** JavaScript values and plain objects *)

Inductive value : Type :=
| VUndefined
| VNull
| VBool (b : bool)
| VNum (n : Z)
| VStr (s : string)
| VArr (items : list value)
| VObj (fields : list (string * value)).

(** A plain object: own properties in insertion order. *)
Definition object (A : Type) : Type := list (string * A).

(** [Object.keys(o)] *)
Definition keys {A} (o : object A) : list string := map fst o.

(** [o[k]], as an option: [None] when [k] is not an own property. *)
Fixpoint own {A} (o : object A) (k : string) : option A :=
  match o with
  | [] => None
  | (k', v) :: o' => if String.eqb k k' then Some v else own o' k
  end.

(** [o[k] = v]: overwrite in place, or append a new property. *)
Fixpoint obj_set {A} (o : object A) (k : string) (v : A) : object A :=
  match o with
  | [] => [(k, v)]
  | (k', v') :: o' =>
      if String.eqb k k' then (k', v) :: o' else (k', v') :: obj_set o' k v
  end.

(** A row record, [RowRecord]: a plain object of values. *)
Definition RowRecord : Type := object value.

(** [rec[k]] read as a JavaScript expression. *)
Definition obj_get (o : RowRecord) (k : string) : value :=
  default VUndefined (own o k).

(** JavaScript truthiness of a value. *)
Definition truthy (v : value) : bool :=
  match v with
  | VUndefined | VNull => false
  | VBool b => b
  | VNum n => negb (n =? 0)%Z
  | VStr s => negb (String.eqb s "")
  | VArr _ | VObj _ => true
  end.

(** The decimal spelling of an array index, as a property key. *)
Definition index_key (i : nat) : string :=
  NilEmpty.string_of_uint (Nat.to_uint i).

(** [v?.[idx]]: optional chaining followed by an index read. *)
Definition opt_index (v : value) (idx : nat) : value :=
  match v with
  | VUndefined | VNull => VUndefined
  | VBool _ | VNum _ => VUndefined
  | VStr s =>
      match String.get idx s with
      | Some c => VStr (String c EmptyString)
      | None => VUndefined
      end
  | VArr items => nth idx items VUndefined
  | VObj fields => obj_get fields (index_key idx)
  end.

(** ** Mapping configuration *)

(** One entry of [ColumnsToMap]: a bare name, or a descriptor object of
    which the engine reads [name] and [optional]. *)
Inductive ColumnToMap : Type :=
| ColName (name : string)
| ColDesc (name : string) (optional : bool).

Definition ColumnsToMap : Type := list ColumnToMap.

(** The value a [WidgetColumnMap] holds for a widget column:
    [string | string[] | null]. *)
Inductive GristCol : Type :=
| GNull
| GSingle (col : string)
| GSeries (cols : list string).

Definition WidgetColumnMap : Type := object GristCol.

(** [WidgetColumnMap | null | undefined], the type of [_mappingsCache]. *)
Inductive MappingsValue : Type :=
| MUndefined
| MNull
| MMap (m : WidgetColumnMap).

(** The module-level variables.  A request is named by its number;
    [_initialization] holds whether that promise is resolved. *)
Record Globals : Type := mkGlobals {
  _mappingsCache : MappingsValue;
  _activeRefreshReq : option nat;        (* [None]: null *)
  _columnsToMap : option ColumnsToMap;   (* [None]: undefined *)
  _tableId : option string;              (* [None]: undefined *)
  _initialization : bool;
  _readyCalled : bool
}.

(** The module state when the module is loaded. *)
Definition initial_globals : Globals :=
  {| _mappingsCache := MUndefined; _activeRefreshReq := None;
     _columnsToMap := None; _tableId := None;
     _initialization := false; _readyCalled := false |}.

(** Assignments to the module-level variables. *)
Definition with_cache (g : Globals) (mv : MappingsValue) : Globals :=
  {| _mappingsCache := mv; _activeRefreshReq := _activeRefreshReq g;
     _columnsToMap := _columnsToMap g; _tableId := _tableId g;
     _initialization := _initialization g; _readyCalled := _readyCalled g |}.

Definition with_activeRefreshReq (g : Globals) (req : option nat) : Globals :=
  {| _mappingsCache := _mappingsCache g; _activeRefreshReq := req;
     _columnsToMap := _columnsToMap g; _tableId := _tableId g;
     _initialization := _initialization g; _readyCalled := _readyCalled g |}.

Definition with_columnsToMap (g : Globals) (cols : option ColumnsToMap)
  : Globals :=
  {| _mappingsCache := _mappingsCache g;
     _activeRefreshReq := _activeRefreshReq g;
     _columnsToMap := cols; _tableId := _tableId g;
     _initialization := _initialization g; _readyCalled := _readyCalled g |}.

Definition with_tableId (g : Globals) (t : option string) : Globals :=
  {| _mappingsCache := _mappingsCache g;
     _activeRefreshReq := _activeRefreshReq g;
     _columnsToMap := _columnsToMap g; _tableId := t;
     _initialization := _initialization g; _readyCalled := _readyCalled g |}.

Definition with_initialization (g : Globals) (b : bool) : Globals :=
  {| _mappingsCache := _mappingsCache g;
     _activeRefreshReq := _activeRefreshReq g;
     _columnsToMap := _columnsToMap g; _tableId := _tableId g;
     _initialization := b; _readyCalled := _readyCalled g |}.

Definition with_readyCalled (g : Globals) (b : bool) : Globals :=
  {| _mappingsCache := _mappingsCache g;
     _activeRefreshReq := _activeRefreshReq g;
     _columnsToMap := _columnsToMap g; _tableId := _tableId g;
     _initialization := _initialization g; _readyCalled := b |}.

(** The [options] argument.  For each property the outer [None] means the
    property is absent, so that the spread [{defaults, ...options}] keeps
    the default; a present property overrides it, also when it holds
    undefined. *)
Record Options : Type := mkOptions {
  columns : option (option ColumnsToMap);
  mappings : option MappingsValue;
  reverse : option bool
}.

(** [{columns: _columnsToMap, mappings: _mappingsCache, reverse: false,
     ...options}] *)
Definition merged_columns (g : Globals) (o : Options) : option ColumnsToMap :=
  default (_columnsToMap g) (columns o).

Definition merged_mappings (g : Globals) (o : Options) : MappingsValue :=
  default (_mappingsCache g) (mappings o).

Definition merged_reverse (o : Options) : bool :=
  default false (reverse o).

(** The [data] argument: one record or an array of records, as the
    handlers of [onRecord] and [onRecords] receive them; a [null] result is
    [None]. *)
Inductive Data : Type :=
| DRecord (rec : RowRecord)
| DArray (recs : list RowRecord).

(** ** mapColumnNames *)

(** [options.columns?.includes(col)]: only a bare string can be equal to
    [col]. *)
Definition includes (cols : ColumnsToMap) (col : string) : bool :=
  existsb (fun c => match c with
                    | ColName n => String.eqb n col
                    | ColDesc _ _ => false
                    end) cols.

(** [options.columns?.find(c => typeof c === 'object' && c?.name === col
     && c.optional)], as the truthiness of what it returns. *)
Definition find_optional (cols : ColumnsToMap) (col : string) : bool :=
  match find (fun c => match c with
                       | ColName _ => false
                       | ColDesc n opt => String.eqb n col && opt
                       end) cols with
  | Some _ => true
  | None => false
  end.

Definition isOptional (cols : ColumnsToMap) (col : string) : bool :=
  negb (includes cols col) && find_optional cols col.

(** A transformation [(from, to) => void], returning the updated [to]. *)
Definition transformation : Type := RowRecord -> RowRecord -> RowRecord.

(** [(from, to) => to.id = from.id] *)
Definition copy_id : transformation :=
  fun from to => obj_set to "id" (obj_get from "id").

(** [(from, to) => { to[widgetCol] = gristCol.map(col => from[col]); }] *)
Definition series_forward (widgetCol : string) (gristCol : list string)
  : transformation :=
  fun from to => obj_set to widgetCol (VArr (map (obj_get from) gristCol)).

(** [for (const [idx, col] of gristCol.entries())
       to[col] = from[widgetCol]?.[idx];] *)
Fixpoint series_entries (widgetCol : string) (from : RowRecord) (idx : nat)
  (gristCol : list string) (to : RowRecord) : RowRecord :=
  match gristCol with
  | [] => to
  | col :: rest =>
      series_entries widgetCol from (S idx) rest
        (obj_set to col (opt_index (obj_get from widgetCol) idx))
  end.

Definition series_reverse (widgetCol : string) (gristCol : list string)
  : transformation :=
  fun from to => series_entries widgetCol from 0 gristCol to.

(** [(from, to) => to[widgetCol] = from[gristCol]] *)
Definition single_forward (widgetCol gristCol : string) : transformation :=
  fun from to => obj_set to widgetCol (obj_get from gristCol).

(** [(from, to) => to[gristCol] = from[widgetCol]] *)
Definition single_reverse (widgetCol gristCol : string) : transformation :=
  fun from to => obj_set to gristCol (obj_get from widgetCol).

(** [options.mappings[widgetCol]]; a missing key reads as a falsy
    non-array, like [null]. *)
Definition mapping_of (m : WidgetColumnMap) (widgetCol : string) : GristCol :=
  default GNull (own m widgetCol).

(** The default comparison of [Array.prototype.sort] on strings. *)
Definition str_le (a b : string) : Prop := String.leb a b = true.

#[global] Instance str_le_dec a b : Decision (str_le a b).
Proof. unfold str_le. apply _. Defined.

(** [Object.keys(options.mappings).sort()] *)
Definition sorted_keys (m : WidgetColumnMap) : list string :=
  merge_sort str_le (keys m).

(** The body of the [for] loop over the sorted widget columns; [None] is
    the early [return null]. *)
Fixpoint build_transformations (cols : ColumnsToMap) (m : WidgetColumnMap)
  (rev : bool) (widgetCols : list string) (transformations : list transformation)
  : option (list transformation) :=
  match widgetCols with
  | [] => Some transformations
  | widgetCol :: rest =>
      match mapping_of m widgetCol with
      | GSeries (c :: cs) =>
          let gristCol := c :: cs in
          build_transformations cols m rev rest
            (transformations ++
               [if rev then series_reverse widgetCol gristCol
                else series_forward widgetCol gristCol])
      | GSingle (String a s) =>
          let gristCol := String a s in
          build_transformations cols m rev rest
            (transformations ++
               [if rev then single_reverse widgetCol gristCol
                else single_forward widgetCol gristCol])
      | GNull | GSingle EmptyString | GSeries [] =>
          if isOptional cols widgetCol
          then build_transformations cols m rev rest transformations
          else None
      end
  end.

(** [rec => transformations.reduce((obj, tran) => { tran(rec, obj);
     return obj; }, {})] *)
Definition convert (transformations : list transformation) (rec : RowRecord)
  : RowRecord :=
  fold_left (fun obj tran => tran rec obj) transformations [].

Definition mapColumnNames (g : Globals) (data : Data) (options : Options)
  : option Data :=
  match merged_columns g options with
  | None => Some data
  | Some cols =>
      match merged_mappings g options with
      | MUndefined | MNull => None
      | MMap m =>
          match data with
          | DArray [] => Some data
          | _ =>
              match build_transformations cols m (merged_reverse options)
                      (sorted_keys m) [copy_id] with
              | None => None
              | Some transformations =>
                  Some match data with
                       | DArray recs => DArray (map (convert transformations) recs)
                       | DRecord rec => DRecord (convert transformations rec)
                       end
              end
          end
      end
  end.

(** [mapColumnNames(data, {...options, reverse: true})]; the [options] type
    of [mapColumnNamesBack] has no [reverse] property. *)
Definition mapColumnNamesBack (g : Globals) (data : Data) (options : Options)
  : option Data :=
  mapColumnNames g data
    {| columns := columns options; mappings := mappings options;
       reverse := Some true |}.

(** ** Derived notions used to state the properties *)

(** A widget column is unmapped when its value takes neither of the two
    copying branches of the loop: [null], an empty string, an empty list. *)
Definition unmapped (gc : GristCol) : bool :=
  match gc with
  | GSeries (_ :: _) => false
  | GSingle (String _ _) => false
  | GNull | GSingle EmptyString | GSeries [] => true
  end.

(** The transformations one iteration of the loop pushes. *)
Definition pushed (m : WidgetColumnMap) (rev : bool) (widgetCol : string)
  : list transformation :=
  match mapping_of m widgetCol with
  | GSeries (c :: cs) =>
      [if rev then series_reverse widgetCol (c :: cs)
       else series_forward widgetCol (c :: cs)]
  | GSingle (String a s) =>
      [if rev then single_reverse widgetCol (String a s)
       else single_forward widgetCol (String a s)]
  | GNull | GSingle EmptyString | GSeries [] => []
  end.

(** The loop does not return early at [widgetCol]. *)
Definition passes (cols : ColumnsToMap) (m : WidgetColumnMap)
  (widgetCol : string) : bool :=
  negb (unmapped (mapping_of m widgetCol)) || isOptional cols widgetCol.

(** A property write [to[k] = v], and a run of them. *)
Definition write : Type := string * value.

Definition apply_writes (ws : list write) (to : RowRecord) : RowRecord :=
  fold_left (fun o kv => obj_set o (fst kv) (snd kv)) ws to.

(** The writes of [series_reverse], from position [idx] on. *)
Fixpoint entries_writes (widgetCol : string) (from : RowRecord) (idx : nat)
  (gristCol : list string) : list write :=
  match gristCol with
  | [] => []
  | col :: rest =>
      (col, opt_index (obj_get from widgetCol) idx)
        :: entries_writes widgetCol from (S idx) rest
  end.

(** The writes one iteration's transformations perform on record [from]. *)
Definition pushed_writes (m : WidgetColumnMap) (rev : bool) (from : RowRecord)
  (widgetCol : string) : list write :=
  match mapping_of m widgetCol with
  | GSeries (c :: cs) =>
      if rev then entries_writes widgetCol from 0 (c :: cs)
      else [(widgetCol, VArr (map (obj_get from) (c :: cs)))]
  | GSingle (String a s) =>
      if rev then [(String a s, obj_get from widgetCol)]
      else [(widgetCol, obj_get from (String a s))]
  | GNull | GSingle EmptyString | GSeries [] => []
  end.

(** What the forward direction stores under a mapped widget column. *)
Definition forward_value (m : WidgetColumnMap) (from : RowRecord)
  (widgetCol : string) : value :=
  match mapping_of m widgetCol with
  | GSeries cols => VArr (map (obj_get from) cols)
  | GSingle col => obj_get from col
  | GNull => VUndefined
  end.

(** Record [back] restores record [orig] on every host column that mapping
    [m] names: the column of a one-to-one mapping, and each column of a
    series at its position. *)
Definition restored (m : WidgetColumnMap) (orig back : RowRecord) : Prop :=
  (forall w g, own m w = Some (GSingle g) -> g <> "" ->
     obj_get back g = obj_get orig g) /\
  (forall w cols i c, own m w = Some (GSeries cols) -> cols !! i = Some c ->
     obj_get back c = obj_get orig c).

Definition data_restored (m : WidgetColumnMap) (orig back : Data) : Prop :=
  match orig, back with
  | DRecord r, DRecord b => restored m r b
  | DArray rs, DArray bs => Forall2 (restored m) rs bs
  | _, _ => False
  end.

(** [Array.isArray(data) ? data.map(f) : f(data)] *)
Definition map_data (f : RowRecord -> RowRecord) (data : Data) : Data :=
  match data with
  | DArray recs => DArray (map f recs)
  | DRecord rec => DRecord (f rec)
  end.

(** A property of every record of the data. *)
Definition data_all (P : RowRecord -> Prop) (data : Data) : Prop :=
  match data with
  | DRecord rec => P rec
  | DArray recs => Forall P recs
  end.

(** The output has the shape of the input and the same [id] in every
    record. *)
Definition same_ids (data out : Data) : Prop :=
  match data, out with
  | DRecord r, DRecord r' => obj_get r' "id" = obj_get r "id"
  | DArray rs, DArray rs' =>
      Forall2 (fun r r' => obj_get r' "id" = obj_get r "id") rs rs'
  | _, _ => False
  end.

(** The property names the transformations pushed for [widgetCol] write. *)
Definition targets (m : WidgetColumnMap) (rev : bool) (widgetCol : string)
  : list string :=
  match mapping_of m widgetCol with
  | GSeries (c :: cs) => if rev then c :: cs else [widgetCol]
  | GSingle (String a s) => if rev then [String a s] else [widgetCol]
  | GNull | GSingle EmptyString | GSeries [] => []
  end.

(** Some transformation of the loop writes property [k]. *)
Definition writes_to (m : WidgetColumnMap) (rev : bool) (k : string) : bool :=
  existsb (String.eqb k) (flat_map (targets m rev) (keys m)).

(** [options] with its [mappings] property set. *)
Definition with_mappings (o : Options) (mv : MappingsValue) : Options :=
  {| columns := columns o; mappings := Some mv; reverse := reverse o |}.

(** Options that give [columns] and [mappings] and leave [reverse] out. *)
Definition opts (cols : ColumnsToMap) (m : WidgetColumnMap) : Options :=
  {| columns := Some (Some cols); mappings := Some (MMap m); reverse := None |}.

(** The configurations of the end-to-end scenarios. *)
Definition spec_name_email : ColumnsToMap :=
  [ColName "Name"; ColDesc "Email" true].

Definition rec_ann : RowRecord := [("id", VNum 1); ("B", VStr "Ann")].

Definition map_tags : WidgetColumnMap := [("Tags", GSeries ["C1"; "C2"])].

Definition rec_tags : RowRecord :=
  [("id", VNum 5); ("C1", VStr "x"); ("C2", VStr "y")].

(** ** Messages *)

(** The properties of an inbound message that the handlers below read;
    [tableId] is [None] when absent, and the two flags are the truthiness
    of [dataChange] and [mappingsChange]. *)
Record Message : Type := mkMessage {
  tableId : option string;
  dataChange : bool;
  mappingsChange : bool
}.

(** Truthiness of a [string | undefined]. *)
Definition str_truthy (s : option string) : bool :=
  match s with
  | Some (String _ _) => true
  | Some EmptyString | None => false
  end.

(** Who called an asynchronous function. *)
Definition caller : Type := nat.

(** ** getMappingsIfChanged

    The event loop runs one piece of code at a time, so an asynchronous
    function is a sequence of atomic steps on the module state: a call runs
    up to its [await]; when the remote request settles, its [then] and
    [finally] reactions run and the callers suspended on it resume, in
    consecutive microtasks. *)

(** How a call of [getMappingsIfChanged] ended. *)
Inductive Outcome : Type :=
| Returned (mappings : option WidgetColumnMap)   (* [None]: null *)
| Threw.

(** How the remote call [sectionApi.mappings()] ended. *)
Inductive Settlement : Type :=
| Fulfilled (mappings : MappingsValue)
| Rejected.

Record CacheRuntime : Type := mkCacheRuntime {
  cvars : Globals;
  issued : nat;                          (* calls of [sectionApi.mappings()] so far *)
  in_flight : list nat;                  (* remote calls not yet settled *)
  suspended : list (caller * nat);       (* at [await _activeRefreshReq] *)
  finished : list (caller * Outcome)
}.

Definition initial_cache : CacheRuntime :=
  {| cvars := initial_globals; issued := 0; in_flight := [];
     suspended := []; finished := [] |}.

(** [_mappingsCache ? JSON.parse(JSON.stringify(_mappingsCache)) : null];
    a mapping holds only strings, arrays of strings and null, which the
    JSON round trip copies as they are. *)
Definition cached_copy (g : Globals) : option WidgetColumnMap :=
  match _mappingsCache g with
  | MMap m => Some m
  | MNull | MUndefined => None
  end.

(** [data.mappingsChange || uninitialized] *)
Definition refresh_wanted (g : Globals) (data : Message) : bool :=
  let uninitialized :=
    match _mappingsCache g with MUndefined => true | _ => false end in
  mappingsChange data || uninitialized.

(** [if (!_activeRefreshReq) { _activeRefreshReq = sectionApi.mappings()
      .then(...).finally(...); }] *)
Definition start_refresh (w : CacheRuntime) : CacheRuntime :=
  match _activeRefreshReq (cvars w) with
  | Some _ => w
  | None =>
      {| cvars := with_activeRefreshReq (cvars w) (Some (issued w));
         issued := S (issued w);
         in_flight := in_flight w ++ [issued w];
         suspended := suspended w;
         finished := finished w |}
  end.

(** The call returns. *)
Definition finish (c : caller) (w : CacheRuntime) : CacheRuntime :=
  {| cvars := cvars w; issued := issued w; in_flight := in_flight w;
     suspended := suspended w;
     finished := finished w ++ [(c, Returned (cached_copy (cvars w)))] |}.

(** A call of [getMappingsIfChanged(data)] by [c], up to its [await] or to
    its [return]. *)
Definition getMappingsIfChanged (c : caller) (data : Message)
  (w : CacheRuntime) : CacheRuntime :=
  if refresh_wanted (cvars w) data then
    let w1 := start_refresh w in
    match _activeRefreshReq (cvars w1) with
    | Some req =>
        {| cvars := cvars w1; issued := issued w1; in_flight := in_flight w1;
           suspended := suspended w1 ++ [(c, req)];
           finished := finished w1 |}
    | None => finish c w1
    end
  else finish c w.

(** Remote call [req] settles: [.then(mappings => void (_mappingsCache =
    mappings))] runs when it is fulfilled, [.finally(() =>
    _activeRefreshReq = null)] runs in both cases, then every caller
    suspended on the request resumes, returning the cache or throwing. *)
Definition settle (req : nat) (s : Settlement) (w : CacheRuntime)
  : CacheRuntime :=
  if existsb (Nat.eqb req) (in_flight w) then
    let g1 := match s with
              | Fulfilled mappings => with_cache (cvars w) mappings
              | Rejected => cvars w
              end in
    let g2 := with_activeRefreshReq g1 None in
    let outcome := match s with
                   | Fulfilled _ => Returned (cached_copy g2)
                   | Rejected => Threw
                   end in
    {| cvars := g2; issued := issued w;
       in_flight := List.filter (fun r => negb (Nat.eqb r req)) (in_flight w);
       suspended :=
         List.filter (fun cr => negb (Nat.eqb (snd cr) req)) (suspended w);
       finished :=
         finished w ++
         map (fun cr => (fst cr, outcome))
           (List.filter (fun cr => Nat.eqb (snd cr) req) (suspended w)) |}
  else w.

Inductive CacheEvent : Type :=
| Call (c : caller) (data : Message)
| Settle (req : nat) (s : Settlement).

Definition cache_step (w : CacheRuntime) (e : CacheEvent) : CacheRuntime :=
  match e with
  | Call c data => getMappingsIfChanged c data w
  | Settle req s => settle req s w
  end.

Definition cache_run (es : list CacheEvent) (w : CacheRuntime) : CacheRuntime :=
  fold_left cache_step es w.

(** What every caller of one refresh gets. *)
Definition refresh_outcome (s : Settlement) : Outcome :=
  match s with
  | Fulfilled (MMap m) => Returned (Some m)
  | Fulfilled _ => Returned None
  | Rejected => Threw
  end.

(** The calls [getMappingsIfChanged(data)] of a list of callers, one after
    the other, with no other event in between. *)
Definition calls_of (calls : list (caller * Message)) : list CacheEvent :=
  map (fun cd => Call (fst cd) (snd cd)) calls.

(** At most one remote call is unsettled, and it is the one
    [_activeRefreshReq] stands for; every suspended caller awaits it. *)
Definition cache_inv (w : CacheRuntime) : Prop :=
  in_flight w = match _activeRefreshReq (cvars w) with
                | Some req => [req]
                | None => []
                end /\
  Forall (fun cr => _activeRefreshReq (cvars w) = Some (snd cr)) (suspended w).

(** A message of the kind the host sends when the records changed. *)
Definition msg_records : Message :=
  {| tableId := Some "Table1"; dataChange := true; mappingsChange := false |}.

(** ** ready and getSelectedTableId *)

Record HandshakeRuntime : Type := mkHandshakeRuntime {
  hvars : Globals;
  setInitialized_calls : nat;            (* calls of [_setInitialized()] so far *)
  awaiting : list caller;                (* at [await _initialization] *)
  resolved : list (caller * option string)   (* what each call returned *)
}.

Definition initial_handshake : HandshakeRuntime :=
  {| hvars := initial_globals; setInitialized_calls := 0;
     awaiting := []; resolved := [] |}.

(** [ready(settings)], as far as the binding goes: the first call sets
    [_readyCalled] and attaches the listener below; a later call returns at
    once.  The asynchronous tail of [ready] (the ready message, the
    configure request, the assignment of [_columnsToMap]) touches neither
    [_tableId] nor [_initialization]. *)
Definition ready (w : HandshakeRuntime) : HandshakeRuntime :=
  if _readyCalled (hvars w) then w
  else {| hvars := with_readyCalled (hvars w) true;
          setInitialized_calls := setInitialized_calls w;
          awaiting := awaiting w; resolved := resolved w |}.

(** [msg.tableId !== _tableId] *)
Definition tableId_differs (a b : option string) : bool :=
  negb (bool_decide (a = b)).

(** The listener [ready] attaches:
    [if (msg.tableId && msg.tableId !== _tableId) {
       if (!_tableId) { _setInitialized(); }
       _tableId = msg.tableId; }] *)
Definition binding_listener (msg : Message) (w : HandshakeRuntime)
  : HandshakeRuntime :=
  let g := hvars w in
  if str_truthy (tableId msg) && tableId_differs (tableId msg) (_tableId g)
  then
    if negb (str_truthy (_tableId g))
    then {| hvars := with_tableId (with_initialization g true) (tableId msg);
            setInitialized_calls := S (setInitialized_calls w);
            awaiting := awaiting w; resolved := resolved w |}
    else {| hvars := with_tableId g (tableId msg);
            setInitialized_calls := setInitialized_calls w;
            awaiting := awaiting w; resolved := resolved w |}
  else w.

(** An inbound message is dispatched to the listeners attached so far. *)
Definition deliver (msg : Message) (w : HandshakeRuntime) : HandshakeRuntime :=
  if _readyCalled (hvars w) then binding_listener msg w else w.

(** A call of [getSelectedTableId()] by [c], up to [await _initialization]. *)
Definition getSelectedTableId (c : caller) (w : HandshakeRuntime)
  : HandshakeRuntime :=
  {| hvars := hvars w; setInitialized_calls := setInitialized_calls w;
     awaiting := awaiting w ++ [c]; resolved := resolved w |}.

(** The microtasks that follow: once [_initialization] is resolved, every
    suspended call resumes with [return _tableId!]. *)
Definition microtasks (w : HandshakeRuntime) : HandshakeRuntime :=
  if _initialization (hvars w)
  then {| hvars := hvars w; setInitialized_calls := setInitialized_calls w;
          awaiting := [];
          resolved := resolved w ++
                      map (fun c => (c, _tableId (hvars w))) (awaiting w) |}
  else w.

Inductive HandshakeEvent : Type :=
| Ready
| Deliver (msg : Message)
| GetSelectedTableId (c : caller)
| Microtasks.

Definition handshake_step (w : HandshakeRuntime) (e : HandshakeEvent)
  : HandshakeRuntime :=
  match e with
  | Ready => ready w
  | Deliver msg => deliver msg w
  | GetSelectedTableId c => getSelectedTableId c w
  | Microtasks => microtasks w
  end.

Definition handshake_run (es : list HandshakeEvent) (w : HandshakeRuntime)
  : HandshakeRuntime :=
  fold_left handshake_step es w.

(** The callers of [getSelectedTableId] in a run, in call order. *)
Definition callers_of (es : list HandshakeEvent) : list caller :=
  flat_map (fun e => match e with GetSelectedTableId c => [c] | _ => [] end) es.

(** The table identifiers the messages of a run carry. *)
Definition announced (es : list HandshakeEvent) : list string :=
  flat_map (fun e => match e with
                     | Deliver msg =>
                         match tableId msg with
                         | Some (String a t) => [String a t]
                         | _ => []
                         end
                     | _ => []
                     end) es.

(** ** The onRecords handler *)

(** The table the handler fetches: [docApi.fetchSelectedTable()] maps
    [col => col.map(decodeObject)] over every property, so every property
    of the table it resolves to is an array. *)
Definition Table : Type := object (list value).

(** An asynchronous handler: what it does next, and how it goes on with
    the answer. *)
Inductive Async (R : Type) : Type :=
| Return (r : R)
| AwaitFetchSelectedTable (k : Table -> Async R)
| AwaitGetMappingsIfChanged (msg : Message)
    (k : option WidgetColumnMap -> Async R)
| InvokeCallback (rows : list RowRecord) (mappings : option WidgetColumnMap)
    (k : Async R).

Arguments Return {R} r.
Arguments AwaitFetchSelectedTable {R} k.
Arguments AwaitGetMappingsIfChanged {R} msg k.
Arguments InvokeCallback {R} rows mappings k.

(** [data[key][i]]: reading past the end of an array gives undefined. *)
Definition cell (data : Table) (key : string) (i : nat) : value :=
  nth i (default [] (own data key)) VUndefined.

(** [for (const key of Object.keys(data)) { row[key] = data[key][i]; }] *)
Fixpoint fill_row (data : Table) (i : nat) (ks : list string) (row : RowRecord)
  : RowRecord :=
  match ks with
  | [] => row
  | key :: rest => fill_row data i rest (obj_set row key (cell data key i))
  end.

(** [const row = {id: data.id[i]}; for (...) {...}] *)
Definition make_row (data : Table) (i : nat) : RowRecord :=
  fill_row data i (keys data) [("id", cell data "id" i)].

(** [for (let i = 0; i < data.id.length; i++) { ...; rows.push(row); }],
    with [n] iterations left. *)
Fixpoint push_rows (data : Table) (i n : nat) (rows : list RowRecord)
  : list RowRecord :=
  match n with
  | 0 => rows
  | S n' => push_rows data (S i) n' (rows ++ [make_row data i])
  end.

Definition to_rows (data : Table) (ids : list value) : list RowRecord :=
  push_rows data 0 (length ids) [].

(** The listener [onRecords(callback)] attaches. *)
Definition onRecords_handler (msg : Message) : Async unit :=
  if negb (str_truthy (tableId msg)) || negb (dataChange msg) then Return tt
  else
    AwaitFetchSelectedTable (fun data =>
      match own data "id" with
      | None => Return tt
      | Some ids =>
          let rows := to_rows data ids in
          AwaitGetMappingsIfChanged msg (fun mappings =>
            InvokeCallback rows mappings (Return tt))
      end).

(** What a handler did, in order. *)
Inductive Action : Type :=
| DidFetchSelectedTable
| DidGetMappingsIfChanged (msg : Message)
| DidCallback (rows : list RowRecord) (mappings : option WidgetColumnMap).

(** The actions of a handler when the table fetch resolves to [fetched]
    and [getMappingsIfChanged] to [mappings]. *)
Fixpoint actions {R} (fetched : Table) (mappings : option WidgetColumnMap)
  (p : Async R) : list Action :=
  match p with
  | Return _ => []
  | AwaitFetchSelectedTable k =>
      DidFetchSelectedTable :: actions fetched mappings (k fetched)
  | AwaitGetMappingsIfChanged msg k =>
      DidGetMappingsIfChanged msg :: actions fetched mappings (k mappings)
  | InvokeCallback rows m k =>
      DidCallback rows m :: actions fetched mappings k
  end.

(** The table of end-to-end scenario D. *)
Definition table_D : Table :=
  [("id", [VNum 1; VNum 2]); ("Name", [VStr "A"; VStr "B"])].

(** Row [row] is row [i] of table [data]: its id is the id column's value
    at [i], every column of the table appears with its value at [i], and
    there is no other field. *)
Definition row_of (data : Table) (ids : list value) (i : nat) (row : RowRecord)
  : Prop :=
  obj_get row "id" = nth i ids VUndefined /\
  (forall key col, own data key = Some col ->
     obj_get row key = nth i col VUndefined) /\
  (forall k, k ∈ keys row <-> k = "id" \/ k ∈ keys data).

(** What holds of the handshake after a run whose callers are [cs] and whose
    messages announced the table ids [ts]. *)
Definition handshake_inv (cs : list caller) (ts : list string)
  (w : HandshakeRuntime) : Prop :=
  let g := hvars w in
  setInitialized_calls w = (if str_truthy (_tableId g) then 1 else 0) /\
  _initialization g = str_truthy (_tableId g) /\
  (_tableId g = None \/
   exists t, _tableId g = Some t /\ t <> "" /\ t ∈ ts /\ _readyCalled g = true) /\
  Forall (fun cv => exists t, snd cv = Some t /\ t <> "" /\ t ∈ ts) (resolved w) /\
  map fst (resolved w) ++ awaiting w = cs.

(** The first message with a table id [t], delivered in state [w]: the
    initialization signal, not fired before, fires, the table id is stored,
    and in the microtasks that follow every suspended caller resumes with
    [t]. *)
Definition first_binding (w : HandshakeRuntime) (msg : Message) (t : string)
  : Prop :=
  let w1 := deliver msg w in
  let w2 := microtasks w1 in
  setInitialized_calls w = 0 /\
  _initialization (hvars w) = false /\
  setInitialized_calls w1 = 1 /\
  _initialization (hvars w1) = true /\
  _tableId (hvars w1) = Some t /\
  awaiting w2 = [] /\
  resolved w2 = resolved w ++ map (fun c => (c, Some t)) (awaiting w).

(** A later message with another table id [t'], delivered in state [w]:
    only [_tableId] changes. *)
Definition rebinding (w : HandshakeRuntime) (msg : Message) (t' : string)
  : Prop :=
  deliver msg w =
    {| hvars := with_tableId (hvars w) (Some t');
       setInitialized_calls := setInitialized_calls w;
       awaiting := awaiting w; resolved := resolved w |}.

(** A call made by [c] in state [w], once the table is bound: in the
    microtasks that follow it resumes with the table id stored then. *)
Definition late_call (w : HandshakeRuntime) (c : caller) : Prop :=
  let w1 := microtasks (getSelectedTableId c w) in
  awaiting w1 = [] /\
  resolved w1 =
    resolved w ++ map (fun c' => (c', _tableId (hvars w))) (awaiting w ++ [c]) /\
  exists t, _tableId (hvars w) = Some t /\ t <> "".

(** ** Further notions for the properties of the engine *)

(** A relation between every input record and its output record. *)
Definition data_rel (R : RowRecord -> RowRecord -> Prop) (data out : Data)
  : Prop :=
  match data, out with
  | DRecord r, DRecord r' => R r r'
  | DArray rs, DArray rs' => Forall2 R rs rs'
  | _, _ => False
  end.

(** A record stays a record, an array stays an array of the same length. *)
Definition same_shape (data out : Data) : Prop :=
  match data, out with
  | DRecord _, DRecord _ => True
  | DArray rs, DArray rs' => length rs' = length rs
  | _, _ => False
  end.

(** Record [out] holds, under every mapped widget column of [m], what
    record [rec] holds in the host column or columns mapped to it. *)
Definition forward_image (m : WidgetColumnMap) (rec out : RowRecord) : Prop :=
  (forall w col, own m w = Some (GSingle col) -> col <> "" ->
     obj_get out w = obj_get rec col) /\
  (forall w cols, own m w = Some (GSeries cols) -> cols <> [] ->
     obj_get out w = VArr (map (obj_get rec) cols)).

(** ** Further notions for the cache and the handshake *)

(** The callers of [getMappingsIfChanged] in a run, in call order. *)
Definition cache_callers (es : list CacheEvent) : list caller :=
  flat_map (fun e => match e with Call c _ => [c] | Settle _ _ => [] end) es.

(** The host keeps to the type of [sectionApi.mappings()]: a fulfilled
    request carries mappings or null, never undefined. *)
Definition typed_event (e : CacheEvent) : bool :=
  match e with
  | Settle _ (Fulfilled MUndefined) => false
  | _ => true
  end.

(** [getSelectedTableIdSync()] *)
Definition getSelectedTableIdSync (w : HandshakeRuntime) : option string :=
  _tableId (hvars w).

(** The events of a run that follow its first call of [ready]. *)
Fixpoint after_ready (es : list HandshakeEvent) : list HandshakeEvent :=
  match es with
  | [] => []
  | Ready :: rest => rest
  | _ :: rest => after_ready rest
  end.

(** ** The onRecord and onNewRecord handlers *)










(** ** The hosting context: transport and logger *)

(** [getPluginPath]: [location.pathname.replace(/^\/plugins\//, '')]. *)
Fixpoint strip_prefix (prefix s : string) : option string :=
  match prefix with
  | EmptyString => Some s
  | String a prefix' =>
      match s with
      | String b s' => if Ascii.eqb a b then strip_prefix prefix' s' else None
      | EmptyString => None
      end
  end.

Definition getPluginPath (pathname : string) : string :=
  default pathname (strip_prefix "/plugins/" pathname).

(** What the module looks at when it is loaded: [window] (with
    [location.pathname] and [isRunningUnderElectron]), [process] (with
    whether [process.send] is defined and [process.env.GRIST_PLUGIN_PATH]),
    and [self.location.pathname]. *)
Record Window : Type := mkWindow {
  window_pathname : string;
  isRunningUnderElectron : bool
}.

Record Process : Type := mkProcess {
  has_send : bool;
  GRIST_PLUGIN_PATH : option string
}.

Record Environment : Type := mkEnvironment {
  window : option Window;     (* [None]: [typeof window === 'undefined'] *)
  process : option Process;   (* [None]: [typeof process === 'undefined'] *)
  self_pathname : string
}.

(** The function handed to [rpc.setSendMessage]. *)
Inductive Transport : Type :=
| SendToHost          (* [preloadWindow.sendToHost(msg)] *)
| PostToParent        (* [window.parent.postMessage(msg, "*")] *)
| WorkerPostMessage   (* [self.postMessage(mssg)] *)
| ProcessSend         (* [process.send(data)] *)
| NoTransport.        (* [(data) => { return; }] *)

(** The [if] chain at the end of the module. *)
Definition install_transport (env : Environment) : Transport :=
  match window env with
  | Some w => if isRunningUnderElectron w then SendToHost else PostToParent
  | None =>
      match process env with
      | None => WorkerPostMessage
      | Some p => if has_send p then ProcessSend else NoTransport
      end
  end.

(** [process.env.GRIST_PLUGIN_PATH || "<unset-plugin-id>"] *)
Definition plugin_id (p : Process) : string :=
  match GRIST_PLUGIN_PATH p with
  | Some (String a s) => String a s
  | Some EmptyString | None => "<unset-plugin-id>"
  end.

(** [createRpcLogger()]: the prefix of the logger, [None] for the empty
    logger [{}]. *)
Definition createRpcLogger (env : Environment) : option string :=
  match window env with
  | Some w => Some ("PLUGIN VIEW " +:+ getPluginPath (window_pathname w) +:+ ":")
  | None =>
      match process env with
      | None => Some ("PLUGIN VIEW " +:+ getPluginPath (self_pathname env) +:+ ":")
      | Some p =>
          if has_send p then Some ("PLUGIN NODE " +:+ plugin_id p +:+ ":")
          else None
      end
  end.

(** The result for an array agrees with the results for its records. *)
Definition elementwise (g : Globals) (o : Options) (rs : list RowRecord)
  (result : option Data) : Prop :=
  match result with
  | None => forall r, mapColumnNames g (DRecord r) o = None
  | Some out =>
      exists outs, out = DArray outs /\
        Forall2 (fun r r' => mapColumnNames g (DRecord r) o = Some (DRecord r'))
          rs outs
  end.

(** The specification names widget column [w], as a bare string or in a
    descriptor. *)
Definition mentions (cols : ColumnsToMap) (w : string) : bool :=
  existsb (fun c => match c with
                    | ColName n => String.eqb n w
                    | ColDesc n _ => String.eqb n w
                    end) cols.

(** * Properties *)

(** ** Objects: reads after writes *)

Section ObjectFacts.
Context {A : Type}.
Implicit Types (o : object A) (k : string) (v : A).

Lemma own_set_eq o k v : own (obj_set o k v) k = Some v.
Proof.
  induction o as [|[k' v'] o IH]; simpl.
  - by rewrite String.eqb_refl.
  - destruct (String.eqb k k') eqn:E; simpl; rewrite E; [done | exact IH].
Qed.

Lemma own_set_ne o k k' v : k <> k' -> own (obj_set o k v) k' = own o k'.
Proof.
  intros Hne. induction o as [|[k0 v0] o IH]; simpl.
  - destruct (String.eqb k' k) eqn:E; [|done].
    apply String.eqb_eq in E. congruence.
  - destruct (String.eqb k k0) eqn:E; simpl.
    + apply String.eqb_eq in E. subst k0.
      destruct (String.eqb k' k) eqn:E'; [|done].
      apply String.eqb_eq in E'. congruence.
    + by rewrite IH.
Qed.

Lemma own_Some_keys o k v : own o k = Some v -> k ∈ keys o.
Proof.
  induction o as [|[k' v'] o IH]; simpl; [done|].
  destruct (String.eqb k k') eqn:E.
  - apply String.eqb_eq in E. subst. intros _. left.
  - intros H. right. by apply IH.
Qed.

Lemma own_None_keys o k : own o k = None <-> k ∉ keys o.
Proof.
  induction o as [|[k' v'] o IH]; simpl.
  - split; [intros _; apply not_elem_of_nil | done].
  - destruct (String.eqb k k') eqn:E.
    + apply String.eqb_eq in E. subst. split; [done|].
      intros []. left.
    + apply String.eqb_neq in E. rewrite IH, not_elem_of_cons. tauto.
Qed.

Lemma own_elem_of o k v : NoDup (keys o) -> (k, v) ∈ o -> own o k = Some v.
Proof.
  induction o as [|[k' v'] o IH]; simpl; intros Hnd Hin.
  - by apply elem_of_nil in Hin.
  - apply NoDup_cons in Hnd as [Hk Hnd].
    apply elem_of_cons in Hin as [Heq|Hin].
    + inversion Heq; subst. by rewrite String.eqb_refl.
    + destruct (String.eqb k k') eqn:E; [|by apply IH].
      apply String.eqb_eq in E. subst k'. exfalso. apply Hk.
      change k with (fst (k, v)). by apply list_elem_of_fmap_2.
Qed.

Lemma own_Some_elem_of o k v : own o k = Some v -> (k, v) ∈ o.
Proof.
  induction o as [|[k' v'] o IH]; simpl; [done|].
  destruct (String.eqb k k') eqn:E.
  - apply String.eqb_eq in E. subst. intros [= ->]. left.
  - intros H. right. by apply IH.
Qed.

(** Two objects with the same properties, listed in any order, read the
    same at every key. *)
Lemma own_Permutation o1 o2 k :
  NoDup (keys o1) -> o1 ≡ₚ o2 -> own o1 k = own o2 k.
Proof.
  intros Hnd Hp.
  assert (Hnd2 : NoDup (keys o2)).
  { unfold keys in *. by rewrite <- Hp. }
  destruct (own o1 k) as [v|] eqn:E1.
  - symmetry. apply own_elem_of; [done|].
    rewrite <- Hp. by apply own_Some_elem_of.
  - symmetry. apply own_None_keys. apply own_None_keys in E1.
    unfold keys in *. by rewrite <- Hp.
Qed.
End ObjectFacts.

(** ** The order used by [sort] *)

Lemma ascii_compare_refl (a : ascii) : Ascii.compare a a = Eq.
Proof. unfold Ascii.compare. apply N.compare_refl. Qed.

Lemma ascii_compare_lt_trans (a b c : ascii) :
  Ascii.compare a b = Lt -> Ascii.compare b c = Lt -> Ascii.compare a c = Lt.
Proof.
  unfold Ascii.compare. rewrite !N.compare_lt_iff. apply N.lt_trans.
Qed.

Lemma string_compare_refl (s : string) : String.compare s s = Eq.
Proof. induction s as [|a s IH]; simpl; [done|]. by rewrite ascii_compare_refl. Qed.

Lemma string_compare_lt_trans (s1 s2 s3 : string) :
  String.compare s1 s2 = Lt -> String.compare s2 s3 = Lt ->
  String.compare s1 s3 = Lt.
Proof.
  revert s2 s3. induction s1 as [|a1 s1 IH]; intros [|a2 s2] [|a3 s3]; simpl;
    try done.
  destruct (Ascii.compare a1 a2) eqn:E12; try done;
    destruct (Ascii.compare a2 a3) eqn:E23; try done; intros H12 H23.
  - apply Ascii.compare_eq_iff in E12, E23. subst.
    rewrite ascii_compare_refl. by eapply IH.
  - apply Ascii.compare_eq_iff in E12. subst. by rewrite E23.
  - apply Ascii.compare_eq_iff in E23. subst. by rewrite E12.
  - by rewrite (ascii_compare_lt_trans _ _ _ E12 E23).
Qed.

Lemma str_le_cases (a b : string) : str_le a b <-> a = b \/ String.compare a b = Lt.
Proof.
  unfold str_le, String.leb. split.
  - destruct (String.compare a b) eqn:E; try done.
    + left. by apply String.compare_eq_iff.
    + by right.
  - intros [-> | ->]; [by rewrite string_compare_refl | done].
Qed.

#[global] Instance str_le_total : Total str_le.
Proof. intros a b. apply String.leb_total. Qed.

#[global] Instance str_le_antisym : AntiSymm (=) str_le.
Proof. intros a b. apply String.leb_antisym. Qed.

#[global] Instance str_le_trans : Transitive str_le.
Proof.
  intros a b c [-> | Hab]%str_le_cases [-> | Hbc]%str_le_cases; apply str_le_cases;
    eauto using string_compare_lt_trans.
Qed.

Lemma sorted_keys_elem_of (m : WidgetColumnMap) (w : string) :
  w ∈ sorted_keys m <-> w ∈ keys m.
Proof. unfold sorted_keys. by rewrite merge_sort_Permutation. Qed.

(** Sorting forgets the order in which the keys were enumerated. *)
Lemma sorted_keys_Permutation (m1 m2 : WidgetColumnMap) :
  m1 ≡ₚ m2 -> sorted_keys m1 = sorted_keys m2.
Proof.
  intros Hp. unfold sorted_keys.
  apply (StronglySorted_unique str_le);
    try apply (StronglySorted_merge_sort str_le).
  rewrite !merge_sort_Permutation. unfold keys. by rewrite Hp.
Qed.

(** ** The loop, in closed form *)

Lemma build_transformations_spec cols m rev ws acc :
  build_transformations cols m rev ws acc =
    if forallb (passes cols m) ws
    then Some (acc ++ flat_map (pushed m rev) ws)
    else None.
Proof.
  revert acc. induction ws as [|w ws IH]; intros acc; simpl.
  - by rewrite app_nil_r.
  - unfold passes at 1, pushed at 1.
    destruct (mapping_of m w) as [|[|a s]|[|c cs]]; simpl;
      try (destruct (isOptional cols w); simpl; [apply IH | done]);
      rewrite IH; destruct (forallb _ ws); try done;
      by rewrite <- app_assoc.
Qed.

Lemma build_transformations_ext cols m1 m2 rev ws acc :
  (forall w, mapping_of m1 w = mapping_of m2 w) ->
  build_transformations cols m1 rev ws acc =
  build_transformations cols m2 rev ws acc.
Proof.
  intros Hm. revert acc. induction ws as [|w ws IH]; intros acc; simpl; [done|].
  rewrite Hm. destruct (mapping_of m2 w) as [|[|a s]|[|c cs]];
    try (destruct (isOptional cols w)); by rewrite ?IH.
Qed.

Lemma series_entries_writes w from idx cols to :
  series_entries w from idx cols to =
  apply_writes (entries_writes w from idx cols) to.
Proof.
  revert idx to. induction cols as [|c cols IH]; intros idx to; simpl; [done|].
  apply IH.
Qed.

Lemma apply_writes_app ws1 ws2 to :
  apply_writes (ws1 ++ ws2) to = apply_writes ws2 (apply_writes ws1 to).
Proof. unfold apply_writes. apply fold_left_app. Qed.

Lemma pushed_apply m rev from w to :
  fold_left (fun obj tran => tran from obj) (pushed m rev w) to =
  apply_writes (pushed_writes m rev from w) to.
Proof.
  unfold pushed, pushed_writes.
  destruct (mapping_of m w) as [|[|a s]|[|c cs]]; try done;
    destruct rev; try done.
  cbn [fold_left]. unfold series_reverse. apply series_entries_writes.
Qed.

Lemma loop_apply m rev from ws to :
  fold_left (fun obj tran => tran from obj) (flat_map (pushed m rev) ws) to =
  apply_writes (flat_map (pushed_writes m rev from) ws) to.
Proof.
  revert to. induction ws as [|w ws IH]; intros to; simpl; [done|].
  rewrite fold_left_app, apply_writes_app, pushed_apply. apply IH.
Qed.

(** [convert] is the [id] copy followed by the writes of the loop. *)
Lemma convert_writes m rev ws from :
  convert (copy_id :: flat_map (pushed m rev) ws) from =
  apply_writes (flat_map (pushed_writes m rev from) ws)
    [("id", obj_get from "id")].
Proof. unfold convert. cbn [fold_left]. apply loop_apply. Qed.

(** The last write to a key decides what is read there. *)
Lemma apply_writes_own_agree ws to k v :
  (forall v', (k, v') ∈ ws -> v' = v) ->
  (exists v', (k, v') ∈ ws) \/ own to k = Some v ->
  own (apply_writes ws to) k = Some v.
Proof.
  revert to. induction ws as [|[k1 v1] ws IH]; intros to Hall Hex; simpl.
  - destruct Hex as [[v' Hin]|H]; [by apply elem_of_nil in Hin | done].
  - apply IH.
    + intros v' Hin. apply Hall. by right.
    + destruct (decide (k1 = k)) as [-> | Hne].
      * right. rewrite (Hall v1); [apply own_set_eq | left].
      * destruct Hex as [[v' Hin]|H].
        -- apply elem_of_cons in Hin as [Heq|Hin]; [congruence|]. left. eauto.
        -- right. by rewrite own_set_ne.
Qed.

Lemma apply_writes_own_untouched ws to k :
  (forall v', (k, v') ∉ ws) -> own (apply_writes ws to) k = own to k.
Proof.
  revert to. induction ws as [|[k1 v1] ws IH]; intros to Hno; simpl; [done|].
  rewrite IH.
  - apply own_set_ne. intros ->. apply (Hno v1). left.
  - intros v' Hin. apply (Hno v'). by right.
Qed.

Lemma elem_of_flat_map {A B} (f : A -> list B) (l : list A) (y : B) :
  y ∈ flat_map f l <-> exists x, x ∈ l /\ y ∈ f x.
Proof.
  rewrite list_elem_of_In, in_flat_map.
  by setoid_rewrite list_elem_of_In.
Qed.

Lemma entries_writes_elem w from idx cols k v :
  (k, v) ∈ entries_writes w from idx cols <->
  exists i, cols !! i = Some k /\ v = opt_index (obj_get from w) (idx + i).
Proof.
  revert idx. induction cols as [|c cols IH]; intros idx; simpl.
  - split; [by intros ?%elem_of_nil | by intros (i & ? & _)].
  - rewrite elem_of_cons, IH. split.
    + intros [[= -> ->]|(i & Hi & ->)].
      * exists 0. by rewrite Nat.add_0_r.
      * exists (S i). by rewrite Nat.add_succ_r.
    + intros ([|i] & Hi & ->); simpl in Hi.
      * left. rewrite Nat.add_0_r. congruence.
      * right. exists i. by rewrite Nat.add_succ_r.
Qed.

(** *** Forward direction: what each widget column receives *)

Lemma forward_write_inv m from ws k v :
  (k, v) ∈ flat_map (pushed_writes m false from) ws ->
  k ∈ ws /\ unmapped (mapping_of m k) = false /\ v = forward_value m from k.
Proof.
  intros (w & Hw & Hin)%elem_of_flat_map.
  unfold pushed_writes, forward_value in *.
  destruct (mapping_of m w) as [|[|a s]|[|c cs]] eqn:E;
    try (by apply elem_of_nil in Hin);
    apply list_elem_of_singleton in Hin; inversion Hin; subst;
    by rewrite E.
Qed.

Lemma forward_write_intro m from ws w :
  w ∈ ws -> unmapped (mapping_of m w) = false ->
  (w, forward_value m from w) ∈ flat_map (pushed_writes m false from) ws.
Proof.
  intros Hw Hm. apply elem_of_flat_map. exists w. split; [done|].
  unfold pushed_writes, forward_value.
  destruct (mapping_of m w) as [|[|a s]|[|c cs]]; try done; left.
Qed.

Lemma forward_own m from ws w :
  w ∈ ws -> unmapped (mapping_of m w) = false ->
  own (convert (copy_id :: flat_map (pushed m false) ws) from) w =
    Some (forward_value m from w).
Proof.
  intros Hw Hm. rewrite convert_writes. apply apply_writes_own_agree.
  - by intros v' (_ & _ & ->)%forward_write_inv.
  - left. eexists. by apply forward_write_intro.
Qed.

(** *** Reverse direction: where each write comes from *)

Lemma reverse_write_inv m from ws k v :
  (k, v) ∈ flat_map (pushed_writes m true from) ws ->
  exists w, w ∈ ws /\
    ((mapping_of m w = GSingle k /\ k <> "" /\ v = obj_get from w) \/
     (exists cols i, mapping_of m w = GSeries cols /\ cols !! i = Some k /\
        v = opt_index (obj_get from w) i)).
Proof.
  intros (w & Hw & Hin)%elem_of_flat_map. exists w. split; [done|].
  unfold pushed_writes in Hin.
  destruct (mapping_of m w) as [|[|a s]|[|c cs]] eqn:E;
    try (by apply elem_of_nil in Hin).
  - apply list_elem_of_singleton in Hin. inversion Hin; subst. by left.
  - apply entries_writes_elem in Hin as (i & Hi & ->). right. eauto.
Qed.

Lemma reverse_write_single m from ws w g :
  w ∈ ws -> mapping_of m w = GSingle g -> g <> "" ->
  (g, obj_get from w) ∈ flat_map (pushed_writes m true from) ws.
Proof.
  intros Hw Hm Hg. apply elem_of_flat_map. exists w. split; [done|].
  unfold pushed_writes. rewrite Hm. destruct g; [done | left].
Qed.

Lemma reverse_write_series m from ws w cols i c :
  w ∈ ws -> mapping_of m w = GSeries cols -> cols !! i = Some c ->
  (c, opt_index (obj_get from w) i) ∈ flat_map (pushed_writes m true from) ws.
Proof.
  intros Hw Hm Hi. apply elem_of_flat_map. exists w. split; [done|].
  unfold pushed_writes. rewrite Hm. destruct cols as [|c0 cs]; [done|].
  apply entries_writes_elem. eauto.
Qed.

(** *** One record, there and back *)

Lemma nth_map_lookup (from : RowRecord) (cols : list string) i c :
  cols !! i = Some c ->
  nth i (map (obj_get from) cols) VUndefined = obj_get from c.
Proof.
  revert i. induction cols as [|c0 cols IH]; intros [|i] H; simpl in *;
    try done; [congruence | by apply IH].
Qed.

Lemma convert_roundtrip m ws rec :
  (forall w, w ∈ ws <-> w ∈ keys m) ->
  restored m rec
    (convert (copy_id :: flat_map (pushed m true) ws)
       (convert (copy_id :: flat_map (pushed m false) ws) rec)).
Proof.
  intros Hws.
  set (out := convert (copy_id :: flat_map (pushed m false) ws) rec).
  assert (Hout : forall w, w ∈ ws -> unmapped (mapping_of m w) = false ->
            obj_get out w = forward_value m rec w).
  { intros w Hw Hm. unfold obj_get, out. by rewrite forward_own. }
  assert (Hall : forall g v', (g, v') ∈ flat_map (pushed_writes m true out) ws ->
            v' = obj_get rec g).
  { intros g v' (w & Hw & [(Hm & Hg & ->)|(cols & i & Hm & Hi & ->)])%reverse_write_inv.
    - rewrite Hout; [|done|rewrite Hm; by destruct g].
      unfold forward_value. by rewrite Hm.
    - rewrite Hout; [|done|rewrite Hm; by destruct cols].
      unfold forward_value. rewrite Hm. simpl. by apply nth_map_lookup. }
  split.
  - intros w g Hw Hg. rewrite convert_writes. fold out. unfold obj_get at 1.
    rewrite (apply_writes_own_agree _ _ g (obj_get rec g)); [done|by apply Hall|].
    left. exists (obj_get out w). apply reverse_write_single; [|by unfold mapping_of; rewrite Hw|done].
    apply Hws. by eapply own_Some_keys.
  - intros w cols i c Hw Hi. rewrite convert_writes. fold out. unfold obj_get at 1.
    rewrite (apply_writes_own_agree _ _ c (obj_get rec c)); [done|by apply Hall|].
    left. exists (opt_index (obj_get out w) i).
    apply reverse_write_series with cols; [|by unfold mapping_of; rewrite Hw|done].
    apply Hws. by eapply own_Some_keys.
Qed.

Lemma restored_refl m rec : restored m rec rec.
Proof. by split. Qed.

(** ** mapColumnNames, case by case *)

Lemma mapColumnNames_no_columns g data o :
  merged_columns g o = None -> mapColumnNames g data o = Some data.
Proof. unfold mapColumnNames. by intros ->. Qed.

Lemma mapColumnNames_no_mappings g data o cols :
  merged_columns g o = Some cols ->
  merged_mappings g o = MNull \/ merged_mappings g o = MUndefined ->
  mapColumnNames g data o = None.
Proof. unfold mapColumnNames. by intros -> [-> | ->]. Qed.

Lemma mapColumnNames_empty_mapped g o cols m :
  merged_columns g o = Some cols -> merged_mappings g o = MMap m ->
  mapColumnNames g (DArray []) o = Some (DArray []).
Proof. unfold mapColumnNames. by intros -> ->. Qed.

Lemma mapColumnNames_mapped g data o cols m :
  merged_columns g o = Some cols -> merged_mappings g o = MMap m ->
  data <> DArray [] ->
  mapColumnNames g data o =
    if forallb (passes cols m) (sorted_keys m)
    then Some (map_data
                 (convert (copy_id ::
                    flat_map (pushed m (merged_reverse o)) (sorted_keys m)))
                 data)
    else None.
Proof.
  unfold mapColumnNames. intros -> -> Hne.
  rewrite build_transformations_spec. simpl app.
  destruct data as [r|[|r rs]]; try done;
    by destruct (forallb _ _).
Qed.

Lemma mapColumnNamesBack_merged g o :
  merged_columns g
    {| columns := columns o; mappings := mappings o; reverse := Some true |}
    = merged_columns g o /\
  merged_mappings g
    {| columns := columns o; mappings := mappings o; reverse := Some true |}
    = merged_mappings g o.
Proof. done. Qed.

Lemma map_data_nonempty f data : data <> DArray [] -> map_data f data <> DArray [].
Proof. by destruct data as [r|[|r rs]]. Qed.

Lemma data_empty_or_not (data : Data) : data = DArray [] \/ data <> DArray [].
Proof. destruct data as [r|[|r rs]]; auto. Qed.

Lemma data_restored_refl m data : data_restored m data data.
Proof.
  destruct data as [r|rs]; simpl; [apply restored_refl|].
  induction rs; constructor; auto using restored_refl.
Qed.

(** C1.  Round trip: whenever the forward call [mapColumnNames] succeeds,
    [mapColumnNamesBack] with the same columns and mappings succeeds on its
    output, and the record it returns holds the original value in the host
    column of every one-to-one mapping and in every host column of every
    series, position by position; for an array of records this holds
    record by record. *)
Theorem mapColumnNames_roundtrip g data options m out :
  merged_reverse options = false ->
  merged_mappings g options = MMap m ->
  mapColumnNames g data options = Some out ->
  exists back,
    mapColumnNamesBack g out options = Some back /\ data_restored m data back.
Proof.
  intros Hfwd Hm Hout. unfold mapColumnNamesBack.
  destruct (mapColumnNamesBack_merged g options) as [Hc' Hm'].
  destruct (merged_columns g options) as [cols|] eqn:Hc.
  - destruct (data_empty_or_not data) as [-> | Hne].
    + rewrite (mapColumnNames_empty_mapped _ _ cols m) in Hout by done.
      inversion Hout; subst out. exists (DArray []).
      split; [|by constructor].
      apply (mapColumnNames_empty_mapped _ _ cols m); congruence.
    + rewrite (mapColumnNames_mapped _ _ _ cols m) in Hout by done.
      destruct (forallb _ _) eqn:Hpass; [|done].
      inversion Hout; subst out. eexists. split.
      * rewrite (mapColumnNames_mapped _ _ _ cols m);
          [by rewrite Hpass | congruence | congruence |].
        by apply map_data_nonempty.
      * rewrite Hfwd. change (merged_reverse _) with true.
        destruct data as [r|rs]; simpl.
        -- apply convert_roundtrip, sorted_keys_elem_of.
        -- clear. induction rs as [|r rs IH]; simpl; constructor; [|done].
           apply convert_roundtrip, sorted_keys_elem_of.
  - rewrite mapColumnNames_no_columns in Hout by done.
    inversion Hout; subst out. exists data.
    split; [|apply data_restored_refl].
    apply mapColumnNames_no_columns. congruence.
Qed.

Lemma mapColumnNames_roundtrip_witness :
  exists back,
    mapColumnNamesBack initial_globals
      (DRecord [("id", VNum 5); ("Tags", VArr [VStr "x"; VStr "y"])])
      (opts [ColName "Tags"] map_tags) = Some back /\
    data_restored map_tags (DRecord rec_tags) back.
Proof.
  apply (mapColumnNames_roundtrip initial_globals (DRecord rec_tags)
           (opts [ColName "Tags"] map_tags) map_tags); reflexivity.
Defined.

(** End-to-end scenario C, evaluated. *)
Example scenario_C :
  mapColumnNames initial_globals (DRecord rec_tags)
    (opts [ColName "Tags"] map_tags)
    = Some (DRecord [("id", VNum 5); ("Tags", VArr [VStr "x"; VStr "y"])]) /\
  mapColumnNamesBack initial_globals
    (DRecord [("id", VNum 5); ("Tags", VArr [VStr "x"; VStr "y"])])
    (opts [ColName "Tags"] map_tags)
    = Some (DRecord rec_tags).
Proof. split; reflexivity. Qed.

(** ** Empty input *)

(** An empty array is returned unchanged when no column specification is
    in effect, or when the mappings are an object (possibly an empty
    one). *)
Lemma mapColumnNames_empty_array_unchanged g o :
  merged_columns g o = None \/ (exists m, merged_mappings g o = MMap m) ->
  mapColumnNames g (DArray []) o = Some (DArray []).
Proof.
  intros [Hc|[m Hm]].
  - by apply mapColumnNames_no_columns.
  - destruct (merged_columns g o) as [cols|] eqn:Hc.
    + by apply (mapColumnNames_empty_mapped _ _ cols m).
    + by apply mapColumnNames_no_columns.
Qed.

(** C2.  On the empty array, with a column specification in effect and null
    mappings, the code returns null and not the empty array: the null check
    of line 231 runs before the empty-array check of line 235, although the
    comment on lines 225-226 announces that a table without rows is
    returned as it is. *)
Lemma empty_array_with_null_mappings :
  mapColumnNames initial_globals (DArray [])
    {| columns := Some (Some spec_name_email); mappings := Some MNull;
       reverse := None |} = None /\
  mapColumnNames initial_globals (DArray [])
    {| columns := Some (Some spec_name_email); mappings := Some MNull;
       reverse := None |} <> Some (DArray []).
Proof. split; [reflexivity | discriminate]. Qed.

(** ** Unmapped columns *)

Lemma forallb_passes_false cols m ws w :
  w ∈ ws -> unmapped (mapping_of m w) = true -> isOptional cols w = false ->
  forallb (passes cols m) ws = false.
Proof.
  intros Hw Hu Ho. apply not_true_iff_false. intros Hall.
  rewrite forallb_forall in Hall.
  specialize (Hall w (proj1 (list_elem_of_In _ _) Hw)).
  unfold passes in Hall. by rewrite Hu, Ho in Hall.
Qed.

Lemma forallb_passes_true cols m ws :
  (forall w, w ∈ ws -> unmapped (mapping_of m w) = true ->
             isOptional cols w = true) ->
  forallb (passes cols m) ws = true.
Proof.
  intros H. apply forallb_forall. intros w Hw%list_elem_of_In.
  unfold passes. destruct (unmapped (mapping_of m w)) eqn:E; [|done].
  by rewrite H.
Qed.

(** The path on which the loop does return null: a key of the mappings
    holds no column (null, an empty string or an empty list) and that widget
    column is not optional.  Then the result is null for every record and
    every non-empty array, in both directions, whatever the other columns
    are. *)
Lemma mapColumnNames_required_unmapped g data o cols m w :
  merged_columns g o = Some cols ->
  merged_mappings g o = MMap m ->
  w ∈ keys m ->
  unmapped (mapping_of m w) = true ->
  isOptional cols w = false ->
  data <> DArray [] ->
  mapColumnNames g data o = None.
Proof.
  intros Hc Hm Hw Hu Ho Hne.
  rewrite (mapColumnNames_mapped _ _ _ cols m) by done.
  rewrite (forallb_passes_false cols m _ w); try done.
  by apply sorted_keys_elem_of.
Qed.

Example mapColumnNames_required_unmapped_example :
  mapColumnNames initial_globals (DRecord rec_ann)
    (opts spec_name_email [("Name", GNull); ("Email", GSingle "C")]) = None.
Proof.
  apply (mapColumnNames_required_unmapped initial_globals (DRecord rec_ann)
           (opts spec_name_email [("Name", GNull); ("Email", GSingle "C")])
           spec_name_email [("Name", GNull); ("Email", GSingle "C")] "Name");
    try reflexivity; [left | discriminate].
Qed.

(** C3.  End-to-end scenario B on the code: with the specification
    ["Name", {name: "Email", optional: true}] and empty mappings the
    required column Name is unmapped, yet the call does not return null: the
    loop of line 255 visits the keys of the mappings only, never reaches the
    [return null] of line 280 for Name, and the record comes back reduced to
    its id, against the docstring of lines 215-217. *)
Lemma mapColumnNames_required_absent_key :
  mapColumnNames initial_globals (DRecord rec_ann) (opts spec_name_email [])
    = Some (DRecord [("id", VNum 1)]) /\
  mapColumnNames initial_globals (DRecord rec_ann) (opts spec_name_email [])
    <> None.
Proof. split; [reflexivity | discriminate]. Qed.

Lemma isOptional_declared cols w :
  isOptional cols w = true <->
  ColDesc w true ∈ cols /\ ColName w ∉ cols.
Proof.
  unfold isOptional, includes, find_optional.
  rewrite andb_true_iff, negb_true_iff. split.
  - intros [Hinc Hfind]. split.
    + destruct (find _ cols) as [c|] eqn:E; [|done].
      apply find_some in E as [Hin Hc]. destruct c as [n|n opt]; [done|].
      apply andb_true_iff in Hc as [->%String.eqb_eq ->].
      by apply list_elem_of_In.
    + intros Hin%list_elem_of_In. apply not_true_iff_false in Hinc. apply Hinc.
      apply existsb_exists. exists (ColName w). by rewrite String.eqb_refl.
  - intros [Hd Hn]. split.
    + apply not_true_iff_false. intros (c & Hin & Hc)%existsb_exists.
      destruct c as [n|n opt]; [|done]. apply String.eqb_eq in Hc. subst n.
      by apply Hn, list_elem_of_In.
    + destruct (find _ cols) as [c|] eqn:E; [done|].
      apply list_elem_of_In in Hd. apply (find_none _ _ E) in Hd.
      simpl in Hd. by rewrite String.eqb_refl in Hd.
Qed.

Lemma forward_omits m ws rec w :
  unmapped (mapping_of m w) = true -> w <> "id" ->
  own (convert (copy_id :: flat_map (pushed m false) ws) rec) w = None.
Proof.
  intros Hu Hid. rewrite convert_writes, apply_writes_own_untouched.
  - simpl. destruct (String.eqb w "id") eqn:E; [|done].
    by apply String.eqb_eq in E.
  - intros v' (_ & Hm & _)%forward_write_inv. congruence.
Qed.

(** C4, as the code has it.  When every unmapped widget column, be it a
    column the specification names or a key of the mappings, is declared
    optional (the specification has a descriptor with that name and
    [optional: true], and does not also list the name as a bare string), the
    call succeeds; in the forward direction no output record has a field for
    an unmapped widget column, the field [id] apart, which is always
    written.  The scenario: specification
    ["Name", {name: "Email", optional: true}], mappings {Name: "B"}, record
    {id: 1, B: "Ann"} gives {id: 1, Name: "Ann"}. *)
Theorem mapColumnNames_optional_unmapped :
  (forall g data o cols m,
     merged_columns g o = Some cols ->
     merged_mappings g o = MMap m ->
     (forall w, w ∈ keys m \/ mentions cols w = true ->
        unmapped (mapping_of m w) = true ->
        ColDesc w true ∈ cols /\ ColName w ∉ cols) ->
     exists out,
       mapColumnNames g data o = Some out /\
       (merged_reverse o = false ->
        forall w, unmapped (mapping_of m w) = true -> w <> "id" ->
          data_all (fun r => own r w = None) out)) /\
  mapColumnNames initial_globals (DRecord rec_ann)
    (opts spec_name_email [("Name", GSingle "B")])
    = Some (DRecord [("id", VNum 1); ("Name", VStr "Ann")]).
Proof.
  split; [|reflexivity].
  intros g data o cols m Hc Hm Hopt.
  destruct (data_empty_or_not data) as [-> | Hne].
  - exists (DArray []). split; [by apply (mapColumnNames_empty_mapped _ _ cols m)|].
    intros _ w _ _. constructor.
  - rewrite (mapColumnNames_mapped _ _ _ cols m) by done.
    rewrite forallb_passes_true.
    + eexists. split; [done|]. intros -> w Hu Hid.
      destruct data as [r|rs]; simpl.
      * by apply forward_omits.
      * apply Forall_fmap, Forall_true. intros r. by apply forward_omits.
    + intros w Hw%sorted_keys_elem_of Hu. apply isOptional_declared. auto.
Qed.

Lemma mapColumnNames_optional_unmapped_witness :
  exists out,
    mapColumnNames initial_globals (DRecord rec_ann)
      (opts spec_name_email [("Name", GSingle "B")]) = Some out /\
    (merged_reverse (opts spec_name_email [("Name", GSingle "B")]) = false ->
     forall w,
       unmapped (mapping_of [("Name", GSingle "B")] w) = true ->
       w <> "id" -> data_all (fun r => own r w = None) out).
Proof.
  apply (proj1 mapColumnNames_optional_unmapped initial_globals (DRecord rec_ann)
           (opts spec_name_email [("Name", GSingle "B")])
           spec_name_email [("Name", GSingle "B")]);
    try reflexivity.
  intros w Hw Hu. apply isOptional_declared.
  assert (Hcases : w = "Name" \/ w = "Email").
  { destruct Hw as [Hw | Hw].
    - simpl in Hw. apply list_elem_of_singleton in Hw. by left.
    - unfold mentions, spec_name_email in Hw. cbn [existsb] in Hw.
      apply orb_true_iff in Hw as [Hw | Hw];
        [left; symmetry; by apply String.eqb_eq|].
      apply orb_true_iff in Hw as [Hw | Hw];
        [right; symmetry; by apply String.eqb_eq | discriminate Hw]. }
  destruct Hcases as [-> | ->]; [discriminate Hu | reflexivity].
Defined.

(** The premise above leaves scenario B out: with empty mappings the
    required column Name is unmapped and not optional. *)
Example optional_premise_excludes_scenario_B :
  ~ (forall w, w ∈ keys ([] : WidgetColumnMap) \/
               mentions spec_name_email w = true ->
       unmapped (mapping_of [] w) = true ->
       ColDesc w true ∈ spec_name_email /\ ColName w ∉ spec_name_email).
Proof.
  intros H. destruct (H "Name" (or_intror eq_refl) eq_refl) as [_ Hn].
  apply Hn. left.
Qed.

(** An optional column named id that is unmapped is not omitted from the
    output: id is always written. *)
Lemma mapColumnNames_optional_id_not_omitted :
  unmapped (mapping_of [("id", GNull)] "id") = true /\
  isOptional [ColDesc "id" true] "id" = true /\
  mapColumnNames initial_globals (DRecord rec_ann)
    (opts [ColDesc "id" true] [("id", GNull)])
    = Some (DRecord [("id", VNum 1)]) /\
  own [("id", VNum 1)] "id" <> None.
Proof. repeat split; try reflexivity. discriminate. Qed.

(** ** The id field *)

Lemma pushed_writes_targets m rev from ws k v :
  (k, v) ∈ flat_map (pushed_writes m rev from) ws ->
  k ∈ flat_map (targets m rev) ws.
Proof.
  intros (w & Hw & Hin)%elem_of_flat_map. apply elem_of_flat_map.
  exists w. split; [done|]. unfold pushed_writes, targets in *.
  destruct (mapping_of m w) as [|[|a s]|[|c cs]];
    try (by apply elem_of_nil in Hin); destruct rev;
    try (apply list_elem_of_singleton in Hin; inversion Hin; subst; left).
  apply entries_writes_elem in Hin as (i & Hi & _).
  by eapply list_elem_of_lookup_2.
Qed.

Lemma writes_to_false m rev k :
  writes_to m rev k = false -> k ∉ flat_map (targets m rev) (sorted_keys m).
Proof.
  unfold writes_to. intros Hf (w & Hw & Hin)%elem_of_flat_map.
  apply not_true_iff_false in Hf. apply Hf, existsb_exists.
  exists k. split; [|apply String.eqb_refl].
  apply list_elem_of_In, elem_of_flat_map. exists w.
  split; [by apply sorted_keys_elem_of | done].
Qed.

Lemma convert_id m rev rec :
  writes_to m rev "id" = false ->
  obj_get (convert (copy_id :: flat_map (pushed m rev) (sorted_keys m)) rec) "id"
    = obj_get rec "id".
Proof.
  intros Hf%writes_to_false. unfold obj_get at 1.
  rewrite convert_writes, apply_writes_own_untouched; [done|].
  intros v' Hin%pushed_writes_targets. by apply Hf.
Qed.

(** C5, as the code has it.  When the call succeeds and no transformation of
    the loop writes the property [id] (forward: no mapped widget column is
    named id; reverse: no mapped host column is named id), every output
    record has the id of the corresponding input record, for a single
    record and for an array. *)
Theorem mapColumnNames_id_copied g data o out :
  (forall m, merged_mappings g o = MMap m ->
             writes_to m (merged_reverse o) "id" = false) ->
  mapColumnNames g data o = Some out ->
  same_ids data out.
Proof.
  intros Hid Hout.
  assert (Hrefl : same_ids data data).
  { clear. destruct data as [r|rs]; simpl; [done|].
    induction rs; by constructor. }
  destruct (merged_columns g o) as [cols|] eqn:Hc.
  - destruct (merged_mappings g o) as [| |m] eqn:Hm.
    + by rewrite (mapColumnNames_no_mappings _ _ _ cols) in Hout by auto.
    + by rewrite (mapColumnNames_no_mappings _ _ _ cols) in Hout by auto.
    + destruct (data_empty_or_not data) as [-> | Hne].
      * rewrite (mapColumnNames_empty_mapped _ _ cols m) in Hout by done.
        by inversion Hout.
      * rewrite (mapColumnNames_mapped _ _ _ cols m) in Hout by done.
        destruct (forallb _ _); [|done]. inversion Hout; subst out.
        specialize (Hid m eq_refl). destruct data as [r|rs]; simpl.
        -- by apply convert_id.
        -- clear -Hid. induction rs as [|r rs IH]; [constructor|].
           rewrite map_cons. constructor; [by apply convert_id | exact IH].
  - rewrite mapColumnNames_no_columns in Hout by done.
    inversion Hout; subst out. exact Hrefl.
Qed.

Lemma mapColumnNames_id_copied_witness :
  same_ids (DArray [rec_ann; [("id", VNum 2); ("B", VStr "Bob")]])
    (DArray [[("id", VNum 1); ("Name", VStr "Ann")];
             [("id", VNum 2); ("Name", VStr "Bob")]]).
Proof.
  apply (mapColumnNames_id_copied initial_globals
           (DArray [rec_ann; [("id", VNum 2); ("B", VStr "Bob")]])
           (opts spec_name_email [("Name", GSingle "B")])).
  - intros m [= <-]. reflexivity.
  - reflexivity.
Defined.

(** A widget column named id that is mapped overwrites the copied id. *)
Lemma mapColumnNames_id_overwritten :
  mapColumnNames initial_globals (DRecord [("id", VNum 1); ("B", VNum 7)])
    (opts [ColName "id"] [("id", GSingle "B")])
    = Some (DRecord [("id", VNum 7)]) /\
  ~ same_ids (DRecord [("id", VNum 1); ("B", VNum 7)])
      (DRecord [("id", VNum 7)]).
Proof. split; [reflexivity | discriminate]. Qed.

(** ** Key order of the mappings *)

Lemma mapping_of_Permutation (m1 m2 : WidgetColumnMap) w :
  NoDup (keys m1) -> m1 ≡ₚ m2 -> mapping_of m1 w = mapping_of m2 w.
Proof. intros Hnd Hp. unfold mapping_of. by rewrite (own_Permutation m1 m2). Qed.

Lemma mapColumnNames_mappings_Permutation g data o m1 m2 :
  NoDup (keys m1) -> m1 ≡ₚ m2 ->
  merged_columns g (with_mappings o (MMap m1)) =
    merged_columns g (with_mappings o (MMap m2)) ->
  mapColumnNames g data (with_mappings o (MMap m1)) =
  mapColumnNames g data (with_mappings o (MMap m2)).
Proof.
  intros Hnd Hp Hc. unfold mapColumnNames. rewrite Hc.
  destruct (merged_columns _ _) as [cols|]; [|done]. simpl.
  rewrite (sorted_keys_Permutation m1 m2) by done.
  rewrite (build_transformations_ext cols m1 m2)
    by (intros w; by apply mapping_of_Permutation).
  done.
Qed.

(** C6.  Two mappings objects with the same properties, enumerated in
    different orders, give the same result for every module state, every
    input, every specification and both directions, whether the mappings
    are passed in the options or taken from the cache. *)
Theorem mapColumnNames_key_order g data o (m1 m2 : WidgetColumnMap) :
  NoDup (keys m1) -> m1 ≡ₚ m2 ->
  mapColumnNames g data (with_mappings o (MMap m1)) =
    mapColumnNames g data (with_mappings o (MMap m2)) /\
  mapColumnNames (with_cache g (MMap m1)) data o =
    mapColumnNames (with_cache g (MMap m2)) data o.
Proof.
  intros Hnd Hp. split.
  - by apply mapColumnNames_mappings_Permutation.
  - destruct o as [c [mv|] r].
    + done.
    + pose proof (mapColumnNames_mappings_Permutation g data
                    (mkOptions c None r) m1 m2 Hnd Hp eq_refl) as H.
      exact H.
Qed.

Lemma mapColumnNames_key_order_witness :
  mapColumnNames initial_globals (DRecord rec_tags)
    (with_mappings (opts [ColName "A"; ColName "B"] [])
       (MMap [("B", GSingle "C2"); ("A", GSingle "C1")])) =
  mapColumnNames initial_globals (DRecord rec_tags)
    (with_mappings (opts [ColName "A"; ColName "B"] [])
       (MMap [("A", GSingle "C1"); ("B", GSingle "C2")])) /\
  mapColumnNames
    (with_cache initial_globals (MMap [("B", GSingle "C2"); ("A", GSingle "C1")]))
    (DRecord rec_tags) (opts [ColName "A"; ColName "B"] []) =
  mapColumnNames
    (with_cache initial_globals (MMap [("A", GSingle "C1"); ("B", GSingle "C2")]))
    (DRecord rec_tags) (opts [ColName "A"; ColName "B"] []).
Proof.
  apply (mapColumnNames_key_order initial_globals (DRecord rec_tags)
           (opts [ColName "A"; ColName "B"] [])
           [("B", GSingle "C2"); ("A", GSingle "C1")]
           [("A", GSingle "C1"); ("B", GSingle "C2")]).
  - simpl. apply NoDup_cons. split; [by intros ?%list_elem_of_singleton|].
    apply NoDup_singleton.
  - apply perm_swap.
Defined.

(** ** The mapping cache: one refresh at a time *)

Lemma cache_inv_initial : cache_inv initial_cache.
Proof. split; [done | constructor]. Qed.

Lemma cache_inv_idle w :
  cache_inv w -> _activeRefreshReq (cvars w) = None ->
  in_flight w = [] /\ suspended w = [].
Proof.
  intros [Hfl Hs] Ha. rewrite Ha in Hfl, Hs. split; [done|].
  destruct (suspended w) as [|cr l]; [done|]. by inversion Hs.
Qed.

Lemma cache_inv_call c data w :
  cache_inv w -> cache_inv (getMappingsIfChanged c data w).
Proof.
  intros Hinv. unfold getMappingsIfChanged.
  destruct (refresh_wanted (cvars w) data); [|exact Hinv].
  unfold start_refresh.
  destruct (_activeRefreshReq (cvars w)) as [req|] eqn:Ha; simpl.
  - rewrite Ha. destruct Hinv as [Hfl Hs]. rewrite Ha in Hfl, Hs.
    split; simpl; rewrite ?Ha; [done|].
    apply Forall_app. split; [done|]. by constructor.
  - destruct (cache_inv_idle w Hinv Ha) as [Hfl Hs].
    split; simpl; rewrite ?Hfl, ?Hs; [done|]. by constructor.
Qed.

Lemma cache_inv_settle req s w : cache_inv w -> cache_inv (settle req s w).
Proof.
  intros Hinv. unfold settle.
  destruct (existsb (Nat.eqb req) (in_flight w)) eqn:E; [|exact Hinv].
  destruct Hinv as [Hfl Hs].
  destruct (_activeRefreshReq (cvars w)) as [r|] eqn:Ha; rewrite Hfl in E |- *;
    simpl in E; [|done].
  rewrite orb_false_r in E. apply Nat.eqb_eq in E. subst r.
  split; simpl.
  - rewrite Nat.eqb_refl. simpl. by destruct s.
  - assert (Hnone : List.filter (fun cr : caller * nat => negb (Nat.eqb (snd cr) req))
                      (suspended w) = []).
    { clear -Hs. induction Hs as [|cr l Hcr _ IH]; simpl; [done|].
      injection Hcr as Heq. rewrite <- Heq at 1. rewrite Nat.eqb_refl. exact IH. }
    rewrite Hnone. constructor.
Qed.

Lemma cache_inv_run es w : cache_inv w -> cache_inv (cache_run es w).
Proof.
  revert w. induction es as [|e es IH]; intros w Hinv; simpl; [done|].
  apply IH. destruct e; simpl; auto using cache_inv_call, cache_inv_settle.
Qed.

(** Callers that arrive while a refresh is in flight suspend on it and
    start nothing. *)
Lemma calls_while_in_flight calls w req :
  _activeRefreshReq (cvars w) = Some req ->
  Forall (fun cd => refresh_wanted (cvars w) (snd cd) = true) calls ->
  cache_run (calls_of calls) w =
    {| cvars := cvars w; issued := issued w; in_flight := in_flight w;
       suspended := suspended w ++ map (fun cd => (fst cd, req)) calls;
       finished := finished w |}.
Proof.
  revert w. induction calls as [|[c data] calls IH]; intros w Ha Hall; simpl.
  - rewrite app_nil_r. by destruct w.
  - apply Forall_cons in Hall as [Hw Hall]. simpl in Hw.
    unfold getMappingsIfChanged at 1, start_refresh. rewrite Hw, Ha. simpl.
    rewrite Ha. rewrite IH by done. simpl. by rewrite <- app_assoc.
Qed.

Lemma filter_suspended_all (calls : list (caller * Message)) req :
  List.filter (fun cr : caller * nat => Nat.eqb (snd cr) req)
    (map (fun cd => (fst cd, req)) calls) = map (fun cd => (fst cd, req)) calls.
Proof.
  induction calls as [|cd calls IH]; simpl; [done|].
  by rewrite Nat.eqb_refl, IH.
Qed.

Lemma filter_suspended_none (calls : list (caller * Message)) req :
  List.filter (fun cr : caller * nat => negb (Nat.eqb (snd cr) req))
    (map (fun cd => (fst cd, req)) calls) = [].
Proof.
  induction calls as [|cd calls IH]; simpl; [done|].
  by rewrite Nat.eqb_refl.
Qed.

Lemma refresh_outcome_cached g s mappings :
  s = Fulfilled mappings ->
  Returned (cached_copy (with_activeRefreshReq (with_cache g mappings) None))
    = refresh_outcome s.
Proof. intros ->. by destruct mappings. Qed.

(** C7.  (1) In every state the event loop can reach, at most one remote
    mappings call is unsettled, and there is one exactly while
    [_activeRefreshReq] is set.  (2) From a state with no refresh in flight,
    when any number of callers call [getMappingsIfChanged] in need of a
    refresh before the remote call settles, exactly one remote call is
    issued; when it settles, fulfilled or rejected, [_activeRefreshReq] is
    null again, every one of these callers finishes with the same outcome
    (the fetched mappings, or the failure), and the next call in need of a
    refresh issues a new remote call. *)
Theorem getMappingsIfChanged_single_flight :
  (forall es,
     let w := cache_run es initial_cache in
     length (in_flight w) <= 1 /\
     (in_flight w = [] <-> _activeRefreshReq (cvars w) = None)) /\
  (forall es c data calls s,
     let w := cache_run es initial_cache in
     _activeRefreshReq (cvars w) = None ->
     Forall (fun cd => refresh_wanted (cvars w) (snd cd) = true)
       ((c, data) :: calls) ->
     let w1 := cache_run (calls_of ((c, data) :: calls)) w in
     let w2 := settle (issued w) s w1 in
     issued w1 = S (issued w) /\
     in_flight w1 = [issued w] /\
     _activeRefreshReq (cvars w2) = None /\
     in_flight w2 = [] /\
     suspended w2 = [] /\
     finished w2 =
       finished w ++
       map (fun cd => (fst cd, refresh_outcome s)) ((c, data) :: calls) /\
     (forall c' data',
        refresh_wanted (cvars w2) data' = true ->
        issued (getMappingsIfChanged c' data' w2) = S (S (issued w)) /\
        in_flight (getMappingsIfChanged c' data' w2) = [S (issued w)])).
Proof.
  split.
  - intros es w.
    destruct (cache_inv_run es initial_cache cache_inv_initial) as [Hfl _].
    fold w in Hfl. rewrite Hfl.
    destruct (_activeRefreshReq (cvars w)); simpl; split; try lia; done.
  - intros es c data calls s w Ha Hall w1 w2.
    pose proof (cache_inv_run es initial_cache cache_inv_initial) as Hinv.
    fold w in Hinv. destruct (cache_inv_idle w Hinv Ha) as [Hfl Hs].
    apply Forall_cons in Hall as [Hw Hall]. simpl in Hw.
    assert (Hw1 : w1 =
      {| cvars := with_activeRefreshReq (cvars w) (Some (issued w));
         issued := S (issued w); in_flight := [issued w];
         suspended := map (fun cd => (fst cd, issued w)) ((c, data) :: calls);
         finished := finished w |}).
    { unfold w1. simpl. unfold getMappingsIfChanged at 1, start_refresh.
      rewrite Hw, Ha. simpl.
      rewrite (calls_while_in_flight calls _ (issued w)); [|done|done].
      simpl. by rewrite Hfl, Hs. }
    assert (Hw2 : w2 =
      {| cvars := with_activeRefreshReq
                    match s with
                    | Fulfilled mappings => with_cache (cvars w1) mappings
                    | Rejected => cvars w1
                    end None;
         issued := S (issued w); in_flight := []; suspended := [];
         finished := finished w ++
           map (fun cd => (fst cd, refresh_outcome s)) ((c, data) :: calls) |}).
    { unfold w2, settle. rewrite Hw1. cbn [in_flight existsb].
      rewrite Nat.eqb_refl. cbn [orb List.filter negb issued suspended finished cvars].
      rewrite Nat.eqb_refl. cbn [negb].
      rewrite (filter_suspended_all ((c, data) :: calls)).
      rewrite (filter_suspended_none ((c, data) :: calls)).
      rewrite map_map. f_equal. f_equal. apply map_ext. intros cd. f_equal.
      destruct s as [mappings|]; [|done]. by destruct mappings. }
    assert (Ha2 : _activeRefreshReq (cvars w2) = None) by by rewrite Hw2.
    assert (Hi2 : issued w2 = S (issued w)) by by rewrite Hw2.
    assert (Hf2 : in_flight w2 = []) by by rewrite Hw2.
    split; [by rewrite Hw1|]. split; [by rewrite Hw1|].
    split; [done|]. split; [done|].
    split; [by rewrite Hw2|]. split; [by rewrite Hw2|].
    intros c' data' Hwanted. unfold getMappingsIfChanged, start_refresh.
    rewrite Hwanted, Ha2. simpl. by rewrite Hi2, Hf2.
Qed.

Lemma getMappingsIfChanged_single_flight_witness :
  let w := cache_run [] initial_cache in
  let w1 := cache_run (calls_of [(1, msg_records); (2, msg_records)]) w in
  let w2 := settle (issued w) (Fulfilled (MMap [("Name", GSingle "B")])) w1 in
  issued w1 = S (issued w) /\
  in_flight w1 = [issued w] /\
  _activeRefreshReq (cvars w2) = None /\
  in_flight w2 = [] /\
  suspended w2 = [] /\
  finished w2 =
    finished w ++
    map (fun cd : caller * Message =>
           (fst cd, refresh_outcome (Fulfilled (MMap [("Name", GSingle "B")]))))
      [(1, msg_records); (2, msg_records)] /\
  (forall c' data',
     refresh_wanted (cvars w2) data' = true ->
     issued (getMappingsIfChanged c' data' w2) = S (S (issued w)) /\
     in_flight (getMappingsIfChanged c' data' w2) = [S (issued w)]).
Proof.
  apply (proj2 getMappingsIfChanged_single_flight [] 1 msg_records
           [(2, msg_records)] (Fulfilled (MMap [("Name", GSingle "B")])));
    [reflexivity | repeat constructor].
Defined.

(** Two callers during one refresh, a failed refresh, and a caller that
    needs no refresh. *)
Example cache_run_example :
  let m := [("Name", GSingle "B")] in
  let change := mkMessage (Some "Table1") true true in
  let w := cache_run
             [Call 1 msg_records; Call 2 msg_records;
              Settle 0 (Fulfilled (MMap m));
              Call 3 msg_records;
              Call 4 change; Call 5 change; Settle 1 Rejected]
             initial_cache in
  issued w = 2 /\
  finished w =
    [(1, Returned (Some m)); (2, Returned (Some m)); (3, Returned (Some m));
     (4, Threw); (5, Threw)] /\
  _activeRefreshReq (cvars w) = None /\
  _mappingsCache (cvars w) = MMap m.
Proof. repeat split; reflexivity. Qed.

(** ** onRecords: from columns to rows *)

Lemma keys_obj_set {A} (o : object A) k v k' :
  k' ∈ keys (obj_set o k v) <-> k' = k \/ k' ∈ keys o.
Proof.
  induction o as [|[k0 v0] o IH]; simpl.
  - rewrite list_elem_of_singleton, elem_of_nil. tauto.
  - destruct (String.eqb k k0) eqn:E; simpl; rewrite !elem_of_cons.
    + apply String.eqb_eq in E. subst k0. tauto.
    + rewrite IH. tauto.
Qed.

Lemma fill_row_writes data i ks row :
  fill_row data i ks row =
  apply_writes (map (fun key => (key, cell data key i)) ks) row.
Proof. revert row. induction ks as [|k ks IH]; intros row; simpl; [done|apply IH]. Qed.

Lemma fill_row_own_in data i ks row k :
  k ∈ ks -> own (fill_row data i ks row) k = Some (cell data k i).
Proof.
  intros Hk. rewrite fill_row_writes. apply apply_writes_own_agree.
  - intros v' (key & [= -> ->] & _)%list_elem_of_fmap. done.
  - left. exists (cell data k i). apply list_elem_of_fmap. by exists k.
Qed.

Lemma fill_row_keys data i ks row k :
  k ∈ keys (fill_row data i ks row) <-> k ∈ ks \/ k ∈ keys row.
Proof.
  revert row. induction ks as [|k0 ks IH]; intros row; simpl.
  - rewrite elem_of_nil. tauto.
  - rewrite IH, keys_obj_set, elem_of_cons. tauto.
Qed.

Lemma make_row_spec data ids i :
  own data "id" = Some ids -> row_of data ids i (make_row data i).
Proof.
  intros Hid. unfold make_row. split; [|split].
  - unfold obj_get. rewrite fill_row_own_in by (by eapply own_Some_keys).
    unfold cell. by rewrite Hid.
  - intros key col Hcol. unfold obj_get.
    rewrite fill_row_own_in by (by eapply own_Some_keys).
    unfold cell. by rewrite Hcol.
  - intros k. rewrite fill_row_keys. simpl. rewrite list_elem_of_singleton.
    tauto.
Qed.

Lemma push_rows_seq data i n rows :
  push_rows data i n rows = rows ++ map (make_row data) (seq i n).
Proof.
  revert i rows. induction n as [|n IH]; intros i rows; simpl.
  - by rewrite app_nil_r.
  - rewrite IH. by rewrite <- app_assoc.
Qed.

Lemma to_rows_lookup data ids i :
  i < length ids -> to_rows data ids !! i = Some (make_row data i).
Proof.
  intros Hi. unfold to_rows. rewrite push_rows_seq. simpl.
  rewrite list_lookup_fmap, lookup_seq_lt by done. done.
Qed.

Lemma to_rows_length data ids : length (to_rows data ids) = length ids.
Proof.
  unfold to_rows. rewrite push_rows_seq. simpl.
  by rewrite length_map, length_seq.
Qed.

(** C9.  For a message with a table id and the data change flag, when the
    fetched table has an id column, the handler fetches the table, asks for
    the mappings and calls the callback once, with one row per entry of the
    id column, in index order: row [i] has the id column's value at [i] as
    its id and, for every column of the table, that column's value at [i].
    The table {id: [1,2], Name: ["A","B"]} gives
    [{id:1, Name:"A"}, {id:2, Name:"B"}]. *)
Theorem onRecords_rows :
  (forall msg data ids mappings,
     str_truthy (tableId msg) = true ->
     dataChange msg = true ->
     own data "id" = Some ids ->
     exists rows,
       actions data mappings (onRecords_handler msg) =
         [DidFetchSelectedTable; DidGetMappingsIfChanged msg;
          DidCallback rows mappings] /\
       length rows = length ids /\
       forall i, i < length ids ->
         exists row, rows !! i = Some row /\ row_of data ids i row) /\
  actions table_D None (onRecords_handler msg_records) =
    [DidFetchSelectedTable; DidGetMappingsIfChanged msg_records;
     DidCallback [[("id", VNum 1); ("Name", VStr "A")];
                  [("id", VNum 2); ("Name", VStr "B")]] None].
Proof.
  split; [|reflexivity].
  intros msg data ids mappings Ht Hd Hid. exists (to_rows data ids).
  split; [|split].
  - unfold onRecords_handler. rewrite Ht, Hd. simpl. by rewrite Hid.
  - apply to_rows_length.
  - intros i Hi. exists (make_row data i).
    split; [by apply to_rows_lookup | by apply make_row_spec].
Qed.

Lemma onRecords_rows_witness :
  exists rows,
    actions table_D (Some [("Name", GSingle "Name")])
      (onRecords_handler msg_records) =
      [DidFetchSelectedTable; DidGetMappingsIfChanged msg_records;
       DidCallback rows (Some [("Name", GSingle "Name")])] /\
    length rows = length [VNum 1; VNum 2] /\
    forall i, i < length [VNum 1; VNum 2] ->
      exists row, rows !! i = Some row /\
                  row_of table_D [VNum 1; VNum 2] i row.
Proof.
  apply (proj1 onRecords_rows msg_records table_D [VNum 1; VNum 2]
           (Some [("Name", GSingle "Name")])); reflexivity.
Defined.

(** C10.  For a message with a table id and the data change flag, when the
    fetched table has no id column, the handler stops after the fetch: the
    callback is not called and [getMappingsIfChanged] is not called. *)
Theorem onRecords_no_id msg data mappings :
  str_truthy (tableId msg) = true ->
  dataChange msg = true ->
  own data "id" = None ->
  actions data mappings (onRecords_handler msg) = [DidFetchSelectedTable] /\
  (forall rows m,
     DidCallback rows m ∉ actions data mappings (onRecords_handler msg)) /\
  (forall msg',
     DidGetMappingsIfChanged msg' ∉ actions data mappings (onRecords_handler msg)).
Proof.
  intros Ht Hd Hid.
  assert (H : actions data mappings (onRecords_handler msg) =
              [DidFetchSelectedTable]).
  { unfold onRecords_handler. rewrite Ht, Hd. simpl. by rewrite Hid. }
  rewrite H. split; [done|].
  split; intros; by intros [=]%list_elem_of_singleton.
Qed.

Lemma onRecords_no_id_witness :
  actions [("Name", [VStr "A"; VStr "B"])] None (onRecords_handler msg_records)
    = [DidFetchSelectedTable] /\
  (forall rows m,
     DidCallback rows m ∉
       actions [("Name", [VStr "A"; VStr "B"])] None
         (onRecords_handler msg_records)) /\
  (forall msg',
     DidGetMappingsIfChanged msg' ∉
       actions [("Name", [VStr "A"; VStr "B"])] None
         (onRecords_handler msg_records)).
Proof.
  apply (onRecords_no_id msg_records [("Name", [VStr "A"; VStr "B"])] None);
    reflexivity.
Defined.

(** ** The handshake: bound once, released once *)

Lemma str_truthy_Some t : t <> "" -> str_truthy (Some t) = true.
Proof. by destruct t. Qed.

Lemma str_truthy_inv o : str_truthy o = true -> exists t, o = Some t /\ t <> "".
Proof. destruct o as [[|a t]|]; try done. intros _. by eexists. Qed.

Lemma handshake_inv_initial : handshake_inv [] [] initial_handshake.
Proof.
  unfold handshake_inv. simpl. split; [done|]. split; [done|].
  split; [by left|]. split; [constructor | done].
Qed.

Lemma handshake_inv_weaken cs ts ts' w :
  handshake_inv cs ts w -> handshake_inv cs (ts ++ ts') w.
Proof.
  intros (H1 & H2 & H3 & H4 & H5). repeat split; try done.
  - destruct H3 as [H3|(t & ? & ? & ? & ?)]; [by left|].
    right. exists t. repeat split; try done. apply elem_of_app. by left.
  - eapply Forall_impl; [exact H4|]. intros cv (t & ? & ? & ?).
    exists t. repeat split; try done. apply elem_of_app. by left.
Qed.

Lemma handshake_inv_step cs ts w e :
  handshake_inv cs ts w ->
  handshake_inv (cs ++ callers_of [e]) (ts ++ announced [e]) (handshake_step w e).
Proof.
  intros Hinv. destruct e as [|msg|c|]; simpl.
  - rewrite app_nil_r. apply handshake_inv_weaken.
    unfold ready. destruct (_readyCalled (hvars w)) eqn:Hr; [done|].
    destruct Hinv as (H1 & H2 & H3 & H4 & H5). repeat split; try done.
    destruct H3 as [H3|(t & ? & ? & ? & ?)]; [by left | congruence].
  - rewrite !app_nil_r.
    set (ts' := match tableId msg with
                | Some (String a t0) => [String a t0]
                | _ => []
                end).
    pose proof (handshake_inv_weaken cs ts ts' w Hinv) as Hweak.
    unfold deliver. destruct (_readyCalled (hvars w)) eqn:Hr; [|done].
    unfold binding_listener.
    destruct (str_truthy (tableId msg)) eqn:Ht; [|done].
    destruct (str_truthy_inv _ Ht) as (t & Hmsg & Hne).
    assert (Hann : t ∈ ts ++ ts').
    { unfold ts'. rewrite Hmsg. destruct t; [done|]. apply elem_of_app.
      right. left. }
    simpl. destruct (tableId_differs (tableId msg) (_tableId (hvars w)));
      [|done].
    destruct Hweak as (H1 & H2 & H3 & H4 & H5).
    destruct (str_truthy (_tableId (hvars w))) eqn:Hold; simpl.
    + unfold handshake_inv. simpl. rewrite Ht.
      repeat split; try done. right. exists t. by repeat split.
    + unfold handshake_inv. simpl. rewrite Ht.
      repeat split; try done; [by rewrite H1|].
      right. exists t. by repeat split.
  - rewrite app_nil_r. destruct Hinv as (H1 & H2 & H3 & H4 & H5).
    repeat split; try done. simpl. by rewrite app_assoc, H5.
  - rewrite !app_nil_r. unfold microtasks.
    destruct (_initialization (hvars w)) eqn:Hi; [|done].
    destruct Hinv as (H1 & H2 & H3 & H4 & H5).
    repeat split; try done; simpl.
    + apply Forall_app. split; [done|]. apply Forall_fmap, Forall_true.
      intros c. simpl. rewrite Hi in H2.
      destruct H3 as [H3|(t & ? & ? & ? & ?)]; [by rewrite H3 in H2|].
      by exists t.
    + rewrite app_nil_r, map_app, map_map. simpl. by rewrite map_id.
Qed.

Lemma handshake_inv_run es cs ts w :
  handshake_inv cs ts w ->
  handshake_inv (cs ++ callers_of es) (ts ++ announced es) (handshake_run es w).
Proof.
  revert cs ts w. induction es as [|e es IH]; intros cs ts w Hinv; simpl.
  - by rewrite !app_nil_r.
  - apply (handshake_inv_step _ _ _ e) in Hinv. apply IH in Hinv.
    unfold callers_of, announced in *. simpl in Hinv.
    by rewrite !app_nil_r, <- !app_assoc in Hinv.
Qed.

Lemma handshake_inv_reachable es :
  handshake_inv (callers_of es) (announced es)
    (handshake_run es initial_handshake).
Proof. apply (handshake_inv_run es [] []), handshake_inv_initial. Qed.

(** C8.  In every state a run of [ready] calls, messages, [getSelectedTableId]
    calls and microtasks can reach: [_setInitialized] was called at most
    once, and once exactly when a table id is stored; the callers released
    so far followed by the callers still suspended are the callers of the
    run, each once and in call order; and every released caller got a
    non-empty table id that a message announced.  After [ready], the first
    message with a non-empty table id fires the signal and releases the
    suspended callers with that id; a later message with another id only
    replaces the stored id; a caller that arrives after the binding is
    released with the id stored then. *)
Theorem getSelectedTableId_released_once :
  (forall es,
     let w := handshake_run es initial_handshake in
     setInitialized_calls w <= 1 /\
     (setInitialized_calls w = 1 <-> str_truthy (_tableId (hvars w)) = true) /\
     _initialization (hvars w) = str_truthy (_tableId (hvars w)) /\
     map fst (resolved w) ++ awaiting w = callers_of es /\
     (forall c v, (c, v) ∈ resolved w ->
        exists t, v = Some t /\ t <> "" /\ t ∈ announced es)) /\
  (forall es msg t,
     let w := handshake_run es initial_handshake in
     _readyCalled (hvars w) = true ->
     _tableId (hvars w) = None ->
     tableId msg = Some t -> t <> "" ->
     first_binding w msg t) /\
  (forall es msg t t',
     let w := handshake_run es initial_handshake in
     _tableId (hvars w) = Some t ->
     tableId msg = Some t' -> t' <> "" -> t' <> t ->
     rebinding w msg t') /\
  (forall es c,
     let w := handshake_run es initial_handshake in
     _initialization (hvars w) = true ->
     late_call w c).
Proof.
  split; [|split; [|split]].
  - intros es w.
    destruct (handshake_inv_reachable es) as (H1 & H2 & H3 & H4 & H5).
    fold w in H1, H2, H3, H4, H5.
    split; [|split; [|split; [|split]]]; try done.
    + rewrite H1. destruct (str_truthy _); lia.
    + rewrite H1. by destruct (str_truthy _).
    + intros c v Hin. rewrite Forall_forall in H4. apply (H4 _ Hin).
  - intros es msg t w Hr Hid Hmsg Hne.
    destruct (handshake_inv_reachable es) as (H1 & H2 & H3 & H4 & H5).
    fold w in H1, H2, H3, H4, H5. rewrite Hid in H1, H2. simpl in H1, H2.
    unfold first_binding, deliver, binding_listener, tableId_differs.
    rewrite Hr, Hmsg, Hid, (str_truthy_Some t Hne). simpl.
    unfold microtasks. simpl. by rewrite H1, H2.
  - intros es msg t t' w Hid Hmsg Hne Hdiff.
    destruct (handshake_inv_reachable es) as (H1 & H2 & H3 & H4 & H5).
    fold w in H1, H2, H3, H4, H5.
    destruct H3 as [H3|(t0 & Ht0 & Hne0 & _ & Hr)]; [congruence|].
    rewrite Hid in Ht0. injection Ht0 as <-.
    unfold rebinding, deliver, binding_listener, tableId_differs.
    rewrite Hr, Hmsg, Hid, (str_truthy_Some t' Hne), (str_truthy_Some t Hne0).
    by rewrite bool_decide_false by congruence.
  - intros es c w Hi.
    destruct (handshake_inv_reachable es) as (H1 & H2 & H3 & H4 & H5).
    fold w in H1, H2, H3, H4, H5.
    unfold late_call, microtasks, getSelectedTableId. simpl. rewrite Hi.
    simpl. split; [done|]. split; [done|].
    rewrite Hi in H2. symmetry in H2. by apply str_truthy_inv.
Qed.

Lemma getSelectedTableId_released_once_witness :
  first_binding
    (handshake_run [GetSelectedTableId 1; Ready; GetSelectedTableId 2]
       initial_handshake)
    msg_records "Table1" /\
  rebinding
    (handshake_run [Ready; GetSelectedTableId 1; Deliver msg_records; Microtasks]
       initial_handshake)
    (mkMessage (Some "Table2") false false) "Table2" /\
  late_call
    (handshake_run [Ready; Deliver msg_records] initial_handshake) 3.
Proof.
  split; [|split].
  - apply (proj1 (proj2 getSelectedTableId_released_once)
             [GetSelectedTableId 1; Ready; GetSelectedTableId 2]
             msg_records "Table1"); [reflexivity..|discriminate].
  - apply (proj1 (proj2 (proj2 getSelectedTableId_released_once))
             [Ready; GetSelectedTableId 1; Deliver msg_records; Microtasks]
             (mkMessage (Some "Table2") false false) "Table1" "Table2");
      [reflexivity | reflexivity | discriminate | discriminate].
  - apply (proj2 (proj2 (proj2 getSelectedTableId_released_once))
             [Ready; Deliver msg_records] 3). reflexivity.
Defined.

(** A run with callers before and after the binding, and a later message
    with another table id. *)
Example handshake_run_example :
  let w := handshake_run
             [GetSelectedTableId 1; Ready; Deliver msg_records; Microtasks;
              Deliver (mkMessage (Some "Table2") false false);
              GetSelectedTableId 2; Microtasks] initial_handshake in
  resolved w = [(1, Some "Table1"); (2, Some "Table2")] /\
  awaiting w = [] /\ setInitialized_calls w = 1.
Proof. repeat split; reflexivity. Qed.

(** * Further properties of the code *)

(** ** When mapColumnNames returns null *)

Lemma forallb_passes_false_inv cols m ws :
  forallb (passes cols m) ws = false ->
  exists w, w ∈ ws /\ unmapped (mapping_of m w) = true /\
            isOptional cols w = false.
Proof.
  induction ws as [|w ws IH]; simpl; [done|].
  destruct (passes cols m w) eqn:E; simpl.
  - intros (w' & ? & ?)%IH. exists w'. split; [by right | done].
  - intros _. exists w. split; [left|].
    unfold passes in E. apply orb_false_iff in E as [E1 E2].
    by apply negb_false_iff in E1.
Qed.

(** X1.  [mapColumnNames] returns null in exactly two situations, both with
    a column specification in effect: the mappings are null or undefined;
    or the data is not an empty array and some key of the mappings holds no
    column and is not optional. *)
Theorem mapColumnNames_null_iff g data o :
  mapColumnNames g data o = None <->
  exists cols,
    merged_columns g o = Some cols /\
    (merged_mappings g o = MNull \/ merged_mappings g o = MUndefined \/
     exists m, merged_mappings g o = MMap m /\ data <> DArray [] /\
       exists w, w ∈ keys m /\ unmapped (mapping_of m w) = true /\
                 isOptional cols w = false).
Proof.
  split.
  - intros Hnone. destruct (merged_columns g o) as [cols|] eqn:Hc.
    + exists cols. split; [done|].
      destruct (merged_mappings g o) as [| |m] eqn:Hm; [auto | auto |].
      right. right. exists m. split; [done|].
      destruct (data_empty_or_not data) as [-> | Hne].
      * by rewrite (mapColumnNames_empty_mapped _ _ cols m) in Hnone.
      * split; [done|].
        rewrite (mapColumnNames_mapped _ _ _ cols m) in Hnone by done.
        destruct (forallb _ _) eqn:Hpass; [done|].
        apply forallb_passes_false_inv in Hpass as (w & Hw & ? & ?).
        exists w. split; [by apply sorted_keys_elem_of | done].
    + by rewrite mapColumnNames_no_columns in Hnone.
  - intros (cols & Hc & [Hm | [Hm | (m & Hm & Hne & w & Hw & Hu & Ho)]]).
    + apply (mapColumnNames_no_mappings _ _ _ cols); auto.
    + apply (mapColumnNames_no_mappings _ _ _ cols); auto.
    + rewrite (mapColumnNames_mapped _ _ _ cols m) by done.
      rewrite (forallb_passes_false cols m _ w); try done.
      by apply sorted_keys_elem_of.
Qed.

(** X2.  Success does not depend on the direction nor on the records:
    for data that is not an empty array, [mapColumnNames] returns null on
    one input exactly when [mapColumnNamesBack] returns null on another. *)
Theorem mapColumnNames_null_both_directions g o data data' :
  data <> DArray [] -> data' <> DArray [] ->
  (mapColumnNames g data o = None <-> mapColumnNamesBack g data' o = None).
Proof.
  intros Hne Hne'. unfold mapColumnNamesBack.
  destruct (mapColumnNamesBack_merged g o) as [Hc' Hm'].
  destruct (merged_columns g o) as [cols|] eqn:Hc.
  - destruct (merged_mappings g o) as [| |m] eqn:Hm.
    + rewrite !(mapColumnNames_no_mappings _ _ _ cols); auto.
    + rewrite !(mapColumnNames_no_mappings _ _ _ cols); auto.
    + rewrite !(mapColumnNames_mapped _ _ _ cols m) by done.
      by destruct (forallb _ _).
  - rewrite !mapColumnNames_no_columns by done. done.
Qed.

Lemma mapColumnNames_null_both_directions_witness :
  mapColumnNames initial_globals (DRecord rec_ann)
    (opts spec_name_email [("Name", GNull)]) = None <->
  mapColumnNamesBack initial_globals (DArray [rec_tags])
    (opts spec_name_email [("Name", GNull)]) = None.
Proof.
  apply (mapColumnNames_null_both_directions initial_globals
           (opts spec_name_email [("Name", GNull)])
           (DRecord rec_ann) (DArray [rec_tags])); discriminate.
Defined.

(** ** Shape and content of the result *)

Lemma map_data_rel (R : RowRecord -> RowRecord -> Prop) f data :
  (forall r, R r (f r)) -> data_rel R data (map_data f data).
Proof.
  intros HR. destruct data as [r|rs]; simpl; [done|].
  induction rs as [|r rs IH]; simpl; by constructor.
Qed.

Lemma data_rel_refl (R : RowRecord -> RowRecord -> Prop) data :
  (forall r, R r r) -> data_rel R data data.
Proof.
  intros HR. destruct data as [r|rs]; simpl; [done|].
  induction rs as [|r rs IH]; by constructor.
Qed.

(** X3.  A successful call preserves the shape of the data: a record gives
    a record, an array gives an array of the same length. *)
Theorem mapColumnNames_same_shape g data o out :
  mapColumnNames g data o = Some out -> same_shape data out.
Proof.
  intros Hout.
  assert (Hrefl : same_shape data data) by by destruct data.
  destruct (merged_columns g o) as [cols|] eqn:Hc.
  - destruct (merged_mappings g o) as [| |m] eqn:Hm.
    + by rewrite (mapColumnNames_no_mappings _ _ _ cols) in Hout by auto.
    + by rewrite (mapColumnNames_no_mappings _ _ _ cols) in Hout by auto.
    + destruct (data_empty_or_not data) as [-> | Hne].
      * rewrite (mapColumnNames_empty_mapped _ _ cols m) in Hout by done.
        by inversion Hout.
      * rewrite (mapColumnNames_mapped _ _ _ cols m) in Hout by done.
        destruct (forallb _ _); [|done]. inversion Hout; subst out.
        destruct data as [r|rs]; simpl; [done | apply length_map].
  - rewrite mapColumnNames_no_columns in Hout by done.
    by inversion Hout; subst out.
Qed.

Lemma mapColumnNames_same_shape_witness :
  same_shape (DArray [rec_ann; rec_ann])
    (DArray [[("id", VNum 1); ("Name", VStr "Ann")];
             [("id", VNum 1); ("Name", VStr "Ann")]]).
Proof.
  apply (mapColumnNames_same_shape initial_globals (DArray [rec_ann; rec_ann])
           (opts spec_name_email [("Name", GSingle "B")])).
  reflexivity.
Defined.

Lemma convert_forward_image m rec :
  forward_image m rec
    (convert (copy_id :: flat_map (pushed m false) (sorted_keys m)) rec).
Proof.
  split.
  - intros w col Hw Hcol. unfold obj_get at 1. rewrite forward_own.
    + unfold forward_value, mapping_of. by rewrite Hw.
    + apply sorted_keys_elem_of. by eapply own_Some_keys.
    + unfold mapping_of. rewrite Hw. by destruct col.
  - intros w cols Hw Hcols. unfold obj_get at 1. rewrite forward_own.
    + unfold forward_value, mapping_of. by rewrite Hw.
    + apply sorted_keys_elem_of. by eapply own_Some_keys.
    + unfold mapping_of. rewrite Hw. by destruct cols.
Qed.

(** X4.  In the forward direction, with a specification and mappings in
    effect, every output record holds under each mapped widget column the
    value of its host column, and for a series the array of the values of
    its host columns in order; this holds also for a widget column named
    id. *)
Theorem mapColumnNames_forward_values g data o cols m out :
  merged_columns g o = Some cols ->
  merged_mappings g o = MMap m ->
  merged_reverse o = false ->
  mapColumnNames g data o = Some out ->
  data_rel (forward_image m) data out.
Proof.
  intros Hc Hm Hrev Hout.
  destruct (data_empty_or_not data) as [-> | Hne].
  - rewrite (mapColumnNames_empty_mapped _ _ cols m) in Hout by done.
    inversion Hout. constructor.
  - rewrite (mapColumnNames_mapped _ _ _ cols m) in Hout by done.
    destruct (forallb _ _); [|done]. inversion Hout; subst out.
    rewrite Hrev. apply map_data_rel. intros r. apply convert_forward_image.
Qed.

Lemma mapColumnNames_forward_values_witness :
  data_rel (forward_image map_tags) (DRecord rec_tags)
    (DRecord [("id", VNum 5); ("Tags", VArr [VStr "x"; VStr "y"])]).
Proof.
  apply (mapColumnNames_forward_values initial_globals (DRecord rec_tags)
           (opts [ColName "Tags"] map_tags) [ColName "Tags"] map_tags);
    reflexivity.
Defined.

Lemma keys_apply_writes ws to k :
  k ∈ keys (apply_writes ws to) <-> k ∈ map fst ws \/ k ∈ keys to.
Proof.
  revert to. induction ws as [|[k1 v1] ws IH]; intros to; simpl.
  - rewrite elem_of_nil. tauto.
  - rewrite IH, keys_obj_set, elem_of_cons. tauto.
Qed.

Lemma entries_writes_fst w from idx cols :
  map fst (entries_writes w from idx cols) = cols.
Proof.
  revert idx. induction cols as [|c cols IH]; intros idx; simpl; [done|].
  by rewrite IH.
Qed.

Lemma pushed_writes_fst m rev from w :
  map fst (pushed_writes m rev from w) = targets m rev w.
Proof.
  unfold pushed_writes, targets.
  destruct (mapping_of m w) as [|[|a s]|[|c cs]]; try done; destruct rev;
    try done.
  apply (entries_writes_fst w from 0 (c :: cs)).
Qed.

Lemma loop_writes_fst m rev from ws :
  map fst (flat_map (pushed_writes m rev from) ws) =
  flat_map (targets m rev) ws.
Proof.
  induction ws as [|w ws IH]; simpl; [done|].
  rewrite List.map_app, pushed_writes_fst. by f_equal.
Qed.

Lemma writes_to_true m rev k :
  writes_to m rev k = true <-> k ∈ flat_map (targets m rev) (sorted_keys m).
Proof.
  unfold writes_to. rewrite existsb_exists. split.
  - intros (k' & Hin & ->%String.eqb_eq).
    apply list_elem_of_In, elem_of_flat_map in Hin as (w & Hw & Hin).
    apply elem_of_flat_map. exists w.
    split; [by apply sorted_keys_elem_of | done].
  - intros (w & Hw & Hin)%elem_of_flat_map. exists k.
    split; [|apply String.eqb_refl].
    apply list_elem_of_In, elem_of_flat_map. exists w.
    split; [by apply sorted_keys_elem_of | done].
Qed.

Lemma convert_keys m rev rec k :
  k ∈ keys (convert (copy_id :: flat_map (pushed m rev) (sorted_keys m)) rec)
  <-> k = "id" \/ writes_to m rev k = true.
Proof.
  rewrite convert_writes, keys_apply_writes, loop_writes_fst, writes_to_true.
  simpl. rewrite list_elem_of_singleton. tauto.
Qed.

(** X5.  With a specification and mappings in effect, the fields of every
    output record are id and the properties the mappings write, and nothing
    else: in the forward direction the mapped widget columns, in the reverse
    direction the mapped host columns.  Every other field of the input is
    dropped. *)
Theorem mapColumnNames_output_fields g data o cols m out :
  merged_columns g o = Some cols ->
  merged_mappings g o = MMap m ->
  mapColumnNames g data o = Some out ->
  data_all (fun r => forall k,
              k ∈ keys r <-> k = "id" \/ writes_to m (merged_reverse o) k = true)
    out.
Proof.
  intros Hc Hm Hout.
  destruct (data_empty_or_not data) as [-> | Hne].
  - rewrite (mapColumnNames_empty_mapped _ _ cols m) in Hout by done.
    inversion Hout. constructor.
  - rewrite (mapColumnNames_mapped _ _ _ cols m) in Hout by done.
    destruct (forallb _ _); [|done]. inversion Hout; subst out.
    destruct data as [r|rs]; simpl.
    + intros k. apply convert_keys.
    + apply Forall_fmap, Forall_true. intros r k. apply convert_keys.
Qed.

Lemma mapColumnNames_output_fields_witness :
  data_all (fun r => forall k,
              k ∈ keys r <->
              k = "id" \/
              writes_to [("Name", GSingle "B")]
                (merged_reverse (opts spec_name_email [("Name", GSingle "B")]))
                k = true)
    (DRecord [("id", VNum 1); ("Name", VStr "Ann")]).
Proof.
  apply (mapColumnNames_output_fields initial_globals
           (DRecord (rec_ann ++ [("Extra", VNum 9)]))
           (opts spec_name_email [("Name", GSingle "B")])
           spec_name_email [("Name", GSingle "B")]); reflexivity.
Defined.

Lemma flat_map_ext_elem {A B} (f g : A -> list B) (l : list A) :
  (forall x, x ∈ l -> f x = g x) -> flat_map f l = flat_map g l.
Proof.
  induction l as [|x l IH]; intros H; simpl; [done|].
  rewrite H by left. rewrite IH; [done|]. intros y Hy. apply H. by right.
Qed.

Lemma pushed_writes_forward_ext m r1 r2 w :
  (forall c, c ∈ targets m true w -> obj_get r1 c = obj_get r2 c) ->
  pushed_writes m false r1 w = pushed_writes m false r2 w.
Proof.
  unfold pushed_writes, targets.
  destruct (mapping_of m w) as [|[|a s]|[|c cs]]; try done; intros H.
  - rewrite H; [done | left].
  - do 3 f_equal. apply map_ext_in. intros c' Hc'%list_elem_of_In. by apply H.
Qed.

(** X6.  The forward direction reads nothing but id and the host columns the
    mappings name: two records that agree on those give the same output. *)
Theorem mapColumnNames_reads_mapped_only g o cols m r1 r2 :
  merged_columns g o = Some cols ->
  merged_mappings g o = MMap m ->
  merged_reverse o = false ->
  obj_get r1 "id" = obj_get r2 "id" ->
  (forall c, writes_to m true c = true -> obj_get r1 c = obj_get r2 c) ->
  mapColumnNames g (DRecord r1) o = mapColumnNames g (DRecord r2) o.
Proof.
  intros Hc Hm Hrev Hid Hagree.
  rewrite !(mapColumnNames_mapped _ _ _ cols m) by done.
  destruct (forallb _ _); [|done]. simpl. do 2 f_equal.
  rewrite Hrev, !convert_writes, Hid. f_equal.
  apply flat_map_ext_elem. intros w Hw. apply pushed_writes_forward_ext.
  intros c Hin. apply Hagree, writes_to_true, elem_of_flat_map. eauto.
Qed.

Lemma mapColumnNames_reads_mapped_only_witness :
  mapColumnNames initial_globals (DRecord rec_ann)
    (opts spec_name_email [("Name", GSingle "B")]) =
  mapColumnNames initial_globals
    (DRecord [("B", VStr "Ann"); ("Secret", VNum 42); ("id", VNum 1)])
    (opts spec_name_email [("Name", GSingle "B")]).
Proof.
  apply (mapColumnNames_reads_mapped_only initial_globals
           (opts spec_name_email [("Name", GSingle "B")])
           spec_name_email [("Name", GSingle "B")]); try reflexivity.
  intros c Hc. unfold writes_to in Hc. simpl in Hc.
  rewrite orb_false_r in Hc. apply String.eqb_eq in Hc. subst c. reflexivity.
Defined.

(** ** From widget names to host names and back to widget names *)

Lemma convert_back_forward m w col r :
  own m w = Some (GSingle col) -> col <> "" ->
  (forall w', w' ∈ keys m -> col ∈ targets m true w' -> w' = w) ->
  obj_get
    (convert (copy_id :: flat_map (pushed m false) (sorted_keys m))
       (convert (copy_id :: flat_map (pushed m true) (sorted_keys m)) r)) w
  = obj_get r w.
Proof.
  intros Hw Hcol Huniq.
  assert (Hm : mapping_of m w = GSingle col) by (unfold mapping_of; by rewrite Hw).
  assert (Hin : w ∈ sorted_keys m).
  { apply sorted_keys_elem_of. by eapply own_Some_keys. }
  unfold obj_get at 1. rewrite forward_own; [|done|rewrite Hm; by destruct col].
  unfold forward_value. rewrite Hm. simpl.
  unfold obj_get at 1. rewrite convert_writes.
  rewrite (apply_writes_own_agree _ _ col (obj_get r w)); [done| |].
  - intros v' (w' & Hw' & Hcase)%reverse_write_inv.
    assert (Heq : w' = w).
    { apply Huniq; [by apply sorted_keys_elem_of|]. unfold targets.
      destruct Hcase as [(Hm' & _ & _)|(cs & i & Hm' & Hi & _)]; rewrite Hm'.
      - destruct col; [done | left].
      - destruct cs as [|c cs]; [done|]. by eapply list_elem_of_lookup_2. }
    subst w'. destruct Hcase as [(_ & _ & ->)|(cs & i & Hm' & _)];
      [done | congruence].
  - left. exists (obj_get r w). by apply reverse_write_single.
Qed.

(** X7.  The other round trip: a record in widget names, mapped back to host
    names and then forward again, holds its original value under every
    widget column that is mapped to one host column which no other entry of
    the mappings names. *)
Theorem mapColumnNamesBack_then_forward g data o cols m w col back :
  merged_columns g o = Some cols ->
  merged_mappings g o = MMap m ->
  merged_reverse o = false ->
  own m w = Some (GSingle col) -> col <> "" ->
  (forall w', w' ∈ keys m -> col ∈ targets m true w' -> w' = w) ->
  mapColumnNamesBack g data o = Some back ->
  exists again,
    mapColumnNames g back o = Some again /\
    data_rel (fun r r2 => obj_get r2 w = obj_get r w) data again.
Proof.
  intros Hc Hm Hrev Hw Hcol Huniq Hback. unfold mapColumnNamesBack in Hback.
  destruct (mapColumnNamesBack_merged g o) as [Hc' Hm'].
  destruct (data_empty_or_not data) as [-> | Hne].
  - rewrite (mapColumnNames_empty_mapped _ _ cols m) in Hback by congruence.
    inversion Hback; subst back. exists (DArray []).
    split; [by apply (mapColumnNames_empty_mapped _ _ cols m) | constructor].
  - rewrite (mapColumnNames_mapped _ _ _ cols m) in Hback by congruence.
    destruct (forallb _ _) eqn:Hpass; [|done].
    inversion Hback; subst back. eexists. split.
    + rewrite (mapColumnNames_mapped _ _ _ cols m);
        [by rewrite Hpass | done | done | by apply map_data_nonempty].
    + rewrite Hrev. change (merged_reverse _) with true.
      destruct data as [r|rs]; simpl.
      * by apply convert_back_forward with col.
      * clear -Hw Hcol Huniq. induction rs as [|r rs IH]; [constructor|].
        rewrite !map_cons. constructor; [|exact IH].
        by apply convert_back_forward with col.
Qed.

Lemma mapColumnNamesBack_then_forward_witness :
  exists again,
    mapColumnNames initial_globals (DRecord [("id", VNum 1); ("B", VStr "Bea")])
      (opts spec_name_email [("Name", GSingle "B")]) = Some again /\
    data_rel (fun r r2 => obj_get r2 "Name" = obj_get r "Name")
      (DRecord [("id", VNum 1); ("Name", VStr "Bea")]) again.
Proof.
  apply (mapColumnNamesBack_then_forward initial_globals
           (DRecord [("id", VNum 1); ("Name", VStr "Bea")])
           (opts spec_name_email [("Name", GSingle "B")])
           spec_name_email [("Name", GSingle "B")] "Name" "B");
    try reflexivity; [discriminate|].
  intros w' Hw' _. simpl in Hw'.
  by apply list_elem_of_singleton in Hw'.
Defined.

(** ** Which columns are optional *)

(** X8.  A widget column is required unless the specification has a
    descriptor with its name and [optional: true] and does not list the name
    as a bare string: a bare name wins over a descriptor, and a name the
    specification does not mention is required. *)
Theorem isOptional_false_iff cols w :
  isOptional cols w = false <-> ColName w ∈ cols \/ ColDesc w true ∉ cols.
Proof.
  split.
  - intros Hf. unfold isOptional in Hf.
    destruct (includes cols w) eqn:Hinc; simpl in Hf.
    + left. unfold includes in Hinc.
      apply existsb_exists in Hinc as (c & Hin & Hc).
      destruct c as [n|n opt]; [|done]. apply String.eqb_eq in Hc. subst n.
      by apply list_elem_of_In.
    + right. intros Hd. unfold find_optional in Hf.
      destruct (find _ cols) as [c|] eqn:E; [done|].
      apply list_elem_of_In in Hd. apply (find_none _ _ E) in Hd.
      simpl in Hd. by rewrite String.eqb_refl in Hd.
  - intros H. destruct (isOptional cols w) eqn:E; [|done].
    apply isOptional_declared in E as [Hd Hn]. by destruct H.
Qed.

(** ** onRecords followed by mapColumnNames *)

(** X9.  The rows the [onRecords] handler builds, passed through the forward
    [mapColumnNames] with mappings that do not write id: the result has one
    record per entry of the id column, in order; record [i] has the id
    column's value at [i] as its id and, under every widget column mapped to
    one host column, that column's value at [i]. *)
Theorem onRecords_rows_mapped g o cols m data ids out :
  own data "id" = Some ids ->
  merged_columns g o = Some cols ->
  merged_mappings g o = MMap m ->
  merged_reverse o = false ->
  writes_to m false "id" = false ->
  mapColumnNames g (DArray (to_rows data ids)) o = Some out ->
  exists outs,
    out = DArray outs /\ length outs = length ids /\
    forall i, i < length ids ->
      exists r, outs !! i = Some r /\
        obj_get r "id" = nth i ids VUndefined /\
        forall w col vals,
          own m w = Some (GSingle col) -> col <> "" ->
          own data col = Some vals ->
          obj_get r w = nth i vals VUndefined.
Proof.
  intros Hid Hc Hm Hrev Hnoid Hout.
  destruct (data_empty_or_not (DArray (to_rows data ids))) as [He | Hne].
  - rewrite He in Hout.
    rewrite (mapColumnNames_empty_mapped _ _ cols m) in Hout by done.
    inversion Hout; subst out. exists []. split; [done|].
    assert (Hlen : length ids = 0).
    { rewrite <- (to_rows_length data ids). injection He as He'.
      by rewrite He'. }
    split; [done|]. intros i Hi. lia.
  - rewrite (mapColumnNames_mapped _ _ _ cols m) in Hout by done.
    destruct (forallb _ _); [|done]. inversion Hout; subst out. simpl.
    eexists. split; [done|]. split.
    + by rewrite length_map, to_rows_length.
    + intros i Hi. eexists. split.
      * rewrite list_lookup_fmap, to_rows_lookup by done. done.
      * destruct (make_row_spec data ids i Hid) as (Hrid & Hcols & _).
        rewrite Hrev. split.
        -- by rewrite convert_id.
        -- intros w col vals Hw Hcol Hvals.
           destruct (convert_forward_image m (make_row data i)) as [Hs _].
           rewrite (Hs w col Hw Hcol). by apply Hcols.
Qed.

Lemma onRecords_rows_mapped_witness :
  exists outs,
    DArray [[("id", VNum 1); ("Label", VStr "A")];
            [("id", VNum 2); ("Label", VStr "B")]] = DArray outs /\
    length outs = length [VNum 1; VNum 2] /\
    forall i, i < length [VNum 1; VNum 2] ->
      exists r, outs !! i = Some r /\
        obj_get r "id" = nth i [VNum 1; VNum 2] VUndefined /\
        forall w col vals,
          own [("Label", GSingle "Name")] w = Some (GSingle col) -> col <> "" ->
          own table_D col = Some vals ->
          obj_get r w = nth i vals VUndefined.
Proof.
  apply (onRecords_rows_mapped initial_globals
           (opts [ColName "Label"] [("Label", GSingle "Name")])
           [ColName "Label"] [("Label", GSingle "Name")] table_D
           [VNum 1; VNum 2]); reflexivity.
Defined.

(** ** The mapping cache: every caller is answered *)

Lemma filter_split_Permutation {A} (f : A -> bool) (l : list A) :
  List.filter f l ++ List.filter (fun x => negb (f x)) l ≡ₚ l.
Proof.
  induction l as [|x l IH]; simpl; [done|].
  destruct (f x); simpl.
  - by rewrite IH.
  - rewrite <- Permutation_middle. by rewrite IH.
Qed.

Lemma cache_accounted_step w e cs :
  map fst (finished w) ++ map fst (suspended w) ≡ₚ cs ->
  map fst (finished (cache_step w e)) ++ map fst (suspended (cache_step w e))
    ≡ₚ cs ++ cache_callers [e].
Proof.
  intros Hp. destruct e as [c data|req st]; simpl.
  - unfold getMappingsIfChanged, start_refresh, finish.
    destruct (refresh_wanted (cvars w) data);
      [destruct (_activeRefreshReq (cvars w)) eqn:Ha|]; simpl;
      rewrite ?Ha; simpl; rewrite ?List.map_app; simpl; rewrite <- Hp.
    + by rewrite app_assoc.
    + by rewrite app_assoc.
    + rewrite <- !app_assoc. apply Permutation_app_head, Permutation_app_comm.
  - rewrite app_nil_r. unfold settle.
    destruct (existsb (Nat.eqb req) (in_flight w)); [|done]. simpl.
    rewrite List.map_app, List.map_map. simpl. rewrite <- Hp.
    rewrite <- app_assoc. apply Permutation_app_head.
    rewrite <- !List.map_app. apply Permutation_map.
    apply (filter_split_Permutation (fun cr => Nat.eqb (snd cr) req)).
Qed.

Lemma cache_accounted_run es w cs :
  map fst (finished w) ++ map fst (suspended w) ≡ₚ cs ->
  map fst (finished (cache_run es w)) ++ map fst (suspended (cache_run es w))
    ≡ₚ cs ++ cache_callers es.
Proof.
  revert w cs. induction es as [|e es IH]; intros w cs Hp; simpl.
  - by rewrite app_nil_r.
  - apply (cache_accounted_step w e) in Hp. apply IH in Hp.
    unfold cache_callers in *. simpl in *.
    by rewrite app_nil_r, <- app_assoc in Hp.
Qed.

(** X10.  No call of [getMappingsIfChanged] is lost or answered twice: in
    every reachable state the callers that have finished together with the
    callers suspended on the refresh are the callers of the run, each as
    often as it called; and while no refresh is in flight nobody is
    suspended, so every caller has finished. *)
Theorem getMappingsIfChanged_callers_accounted es :
  let w := cache_run es initial_cache in
  map fst (finished w) ++ map fst (suspended w) ≡ₚ cache_callers es /\
  (_activeRefreshReq (cvars w) = None ->
   map fst (finished w) ≡ₚ cache_callers es).
Proof.
  intros w.
  assert (Hp : map fst (finished w) ++ map fst (suspended w) ≡ₚ cache_callers es).
  { apply (cache_accounted_run es initial_cache []). done. }
  split; [done|]. intros Ha.
  pose proof (cache_inv_run es initial_cache cache_inv_initial) as Hinv.
  fold w in Hinv. destruct (cache_inv_idle w Hinv Ha) as [_ Hs].
  rewrite Hs in Hp. simpl in Hp. by rewrite app_nil_r in Hp.
Qed.

Lemma getMappingsIfChanged_callers_accounted_witness :
  let w := cache_run [Call 1 msg_records; Call 2 msg_records;
                      Settle 0 Rejected] initial_cache in
  map fst (finished w) ++ map fst (suspended w) ≡ₚ
    cache_callers [Call 1 msg_records; Call 2 msg_records; Settle 0 Rejected] /\
  (_activeRefreshReq (cvars w) = None ->
   map fst (finished w) ≡ₚ
     cache_callers [Call 1 msg_records; Call 2 msg_records; Settle 0 Rejected]).
Proof.
  apply (getMappingsIfChanged_callers_accounted
           [Call 1 msg_records; Call 2 msg_records; Settle 0 Rejected]).
Defined.

(** ** The mapping cache: once fetched, no fetch without a change *)

Lemma cache_populated_step w e :
  typed_event e = true ->
  _mappingsCache (cvars w) <> MUndefined ->
  _mappingsCache (cvars (cache_step w e)) <> MUndefined.
Proof.
  intros Ht Hc. destruct e as [c data|req st]; simpl.
  - unfold getMappingsIfChanged, start_refresh, finish.
    destruct (refresh_wanted (cvars w) data);
      [destruct (_activeRefreshReq (cvars w)) eqn:Ha|]; simpl;
      rewrite ?Ha; done.
  - unfold settle. destruct (existsb _ _); [|done]. simpl.
    destruct st as [[| |m]|]; done.
Qed.

Lemma cache_populated_run es w :
  forallb typed_event es = true ->
  _mappingsCache (cvars w) <> MUndefined ->
  _mappingsCache (cvars (cache_run es w)) <> MUndefined.
Proof.
  revert w. induction es as [|e es IH]; intros w Ht Hc; simpl; [done|].
  simpl in Ht. apply andb_true_iff in Ht as [He Hes].
  apply IH; [done|]. by apply cache_populated_step.
Qed.

(** X11.  Once the cache holds mappings or null, and as long as the host
    fulfils requests with mappings or null, the cache never goes back to
    undefined; a call for a message without the mappings change flag then
    issues no remote call and returns the cached value at once. *)
Theorem getMappingsIfChanged_cached w es c data :
  forallb typed_event es = true ->
  _mappingsCache (cvars w) <> MUndefined ->
  mappingsChange data = false ->
  let w1 := cache_run es w in
  let w2 := getMappingsIfChanged c data w1 in
  _mappingsCache (cvars w1) <> MUndefined /\
  issued w2 = issued w1 /\
  in_flight w2 = in_flight w1 /\
  suspended w2 = suspended w1 /\
  finished w2 = finished w1 ++ [(c, Returned (cached_copy (cvars w1)))].
Proof.
  intros Ht Hc Hd w1 w2.
  assert (Hc1 : _mappingsCache (cvars w1) <> MUndefined)
    by by apply cache_populated_run.
  split; [done|]. unfold w2, getMappingsIfChanged, refresh_wanted.
  rewrite Hd. by destruct (_mappingsCache (cvars w1)).
Qed.

Lemma getMappingsIfChanged_cached_witness :
  let w := cache_run [Call 1 msg_records; Settle 0 (Fulfilled MNull)]
             initial_cache in
  let w1 := cache_run [Call 2 (mkMessage None false true); Settle 1 Rejected] w in
  let w2 := getMappingsIfChanged 3 msg_records w1 in
  _mappingsCache (cvars w1) <> MUndefined /\
  issued w2 = issued w1 /\
  in_flight w2 = in_flight w1 /\
  suspended w2 = suspended w1 /\
  finished w2 = finished w1 ++ [(3, Returned (cached_copy (cvars w1)))].
Proof.
  apply (getMappingsIfChanged_cached
           (cache_run [Call 1 msg_records; Settle 0 (Fulfilled MNull)]
              initial_cache)
           [Call 2 (mkMessage None false true); Settle 1 Rejected]
           3 msg_records); [reflexivity | discriminate | reflexivity].
Defined.

(** ** The handshake: ready twice, and the table id in effect *)

Lemma readyCalled_step w e :
  _readyCalled (hvars w) = true ->
  _readyCalled (hvars (handshake_step w e)) = true.
Proof.
  intros Hr. destruct e as [|msg|c|]; simpl.
  - unfold ready. by rewrite Hr.
  - unfold deliver, binding_listener. rewrite Hr.
    destruct (_ && _); [|done]. by destruct (negb _).
  - done.
  - unfold microtasks. by destruct (_initialization _).
Qed.

Lemma readyCalled_run es w :
  _readyCalled (hvars w) = true ->
  _readyCalled (hvars (handshake_run es w)) = true.
Proof.
  revert w. induction es as [|e es IH]; intros w Hr; simpl; [done|].
  by apply IH, readyCalled_step.
Qed.

Lemma readyCalled_ready w : _readyCalled (hvars (ready w)) = true.
Proof. unfold ready. by destruct (_readyCalled (hvars w)) eqn:E. Qed.

(** X12.  [ready] is safe to call several times: in any run from any state,
    a call of [ready] that follows an earlier call changes nothing, whatever
    happened in between. *)
Theorem ready_idempotent w es0 es1 es2 :
  handshake_run (es0 ++ Ready :: es1 ++ Ready :: es2) w =
  handshake_run (es0 ++ Ready :: es1 ++ es2) w.
Proof.
  unfold handshake_run. rewrite !fold_left_app. simpl.
  rewrite !fold_left_app. simpl. f_equal.
  set (w1 := fold_left handshake_step es1 (ready (fold_left handshake_step es0 w))).
  assert (Hr : _readyCalled (hvars w1) = true)
    by apply (readyCalled_run es1), readyCalled_ready.
  unfold ready at 1. by rewrite Hr.
Qed.

Lemma tableId_after_ready es w :
  _readyCalled (hvars w) = true ->
  _tableId (hvars (handshake_run es w)) =
    match last (announced es) with
    | Some t => Some t
    | None => _tableId (hvars w)
    end.
Proof.
  revert w. induction es as [|e es IH]; intros w Hr; [done|].
  change (handshake_run (e :: es) w) with (handshake_run es (handshake_step w e)).
  rewrite IH by by apply readyCalled_step.
  destruct e as [|msg|c|]; simpl.
  - unfold ready. by rewrite Hr.
  - unfold deliver, binding_listener, tableId_differs. rewrite Hr.
    destruct (tableId msg) as [[|a t]|] eqn:Hmsg; simpl; [done | | done].
    rewrite last_cons.
    destruct (last (announced es)) as [t'|]; [done|].
    destruct (bool_decide (Some (String a t) = _tableId (hvars w))) eqn:Hd;
      simpl.
    + by apply bool_decide_eq_true in Hd.
    + by destruct (negb (str_truthy (_tableId (hvars w)))).
  - done.
  - unfold microtasks. by destruct (_initialization (hvars w)).
Qed.

Lemma tableId_before_ready es w :
  _readyCalled (hvars w) = false ->
  _tableId (hvars w) = None ->
  _tableId (hvars (handshake_run es w)) = last (announced (after_ready es)).
Proof.
  revert w. induction es as [|e es IH]; intros w Hr Hid; [done|].
  change (handshake_run (e :: es) w) with (handshake_run es (handshake_step w e)).
  destruct e as [|msg|c|]; simpl.
  - rewrite tableId_after_ready by apply readyCalled_ready.
    unfold ready. rewrite Hr. simpl. rewrite Hid.
    by destruct (last (announced es)).
  - unfold deliver. rewrite Hr. by apply IH.
  - by apply IH.
  - unfold microtasks. destruct (_initialization (hvars w)); by apply IH.
Qed.

(** X13.  [getSelectedTableIdSync] returns the table id of the last message
    with a non-empty table id that arrived after the first call of [ready],
    and undefined when there was none; calls of [getSelectedTableId], the
    resumption of its callers and messages that arrived before [ready] have
    no influence on it. *)
Theorem getSelectedTableIdSync_last_announced es :
  getSelectedTableIdSync (handshake_run es initial_handshake) =
    last (announced (after_ready es)).
Proof. by apply tableId_before_ready. Qed.

(** A message before [ready] is not seen; the last one after it wins. *)
Example getSelectedTableIdSync_example :
  getSelectedTableIdSync
    (handshake_run
       [Deliver (mkMessage (Some "T0") false false); Ready;
        Deliver msg_records; GetSelectedTableId 1;
        Deliver (mkMessage (Some "Table2") true false);
        Deliver (mkMessage None true false); Microtasks]
       initial_handshake) = Some "Table2".
Proof. reflexivity. Qed.

(** ** onRecord and onNewRecord: one message, one callback *)


(** ** The plugin path and the logger *)

Lemma strip_prefix_app prefix s : strip_prefix prefix (prefix +:+ s) = Some s.
Proof.
  induction prefix as [|a prefix IH]; simpl; [done|].
  by rewrite Ascii.eqb_refl.
Qed.

Lemma strip_prefix_Some prefix s r :
  strip_prefix prefix s = Some r -> s = prefix +:+ r.
Proof.
  revert s. induction prefix as [|a prefix IH]; intros s; simpl.
  - by intros [= ->].
  - destruct s as [|b s]; [done|].
    destruct (Ascii.eqb a b) eqn:E; [|done].
    apply Ascii.eqb_eq in E. subst b. intros H. by rewrite (IH s H).
Qed.

(** X15.  [getPluginPath] removes one leading "/plugins/" and nothing else:
    a path that starts with it loses it once, also when what follows starts
    with "/plugins/" again, and any other path is returned unchanged. *)
Theorem getPluginPath_strips_prefix :
  (forall s, getPluginPath ("/plugins/" +:+ s) = s) /\
  (forall p, (forall s, p <> "/plugins/" +:+ s) -> getPluginPath p = p).
Proof.
  split.
  - intros s. unfold getPluginPath. by rewrite strip_prefix_app.
  - intros p Hp. unfold getPluginPath.
    destruct (strip_prefix "/plugins/" p) as [r|] eqn:E; [|done].
    apply strip_prefix_Some in E. by destruct (Hp r).
Qed.

Lemma getPluginPath_strips_prefix_witness :
  getPluginPath "/widgets/plugins/index.html" = "/widgets/plugins/index.html".
Proof.
  apply (proj2 getPluginPath_strips_prefix "/widgets/plugins/index.html").
  intros s. discriminate.
Defined.

(** X16.  The logger fits the transport the module installs: the logger is
    the empty one exactly when the sender is the one that does nothing; with
    [process.send] the prefix is "PLUGIN NODE " followed by a plugin id that
    is never empty; in a window or a worker the prefix is "PLUGIN VIEW "
    followed by a path. *)
Theorem createRpcLogger_matches_transport env :
  (createRpcLogger env = None <-> install_transport env = NoTransport) /\
  (install_transport env = ProcessSend ->
   exists id, id <> "" /\
     createRpcLogger env = Some ("PLUGIN NODE " +:+ id +:+ ":")) /\
  (install_transport env <> NoTransport ->
   install_transport env <> ProcessSend ->
   exists path, createRpcLogger env = Some ("PLUGIN VIEW " +:+ path +:+ ":")).
Proof.
  unfold createRpcLogger, install_transport.
  destruct env as [[[wp el]|] [[snd plugin]|] sp]; simpl;
    try destruct el; try destruct snd; simpl;
    (split; [split; intros H; by try discriminate H|]);
    (split; [intros H; try discriminate H
            |intros H1 H2; try done; by eexists]).
  exists (plugin_id (mkProcess true plugin)). split; [|done].
  unfold plugin_id. simpl. by destruct plugin as [[|a s]|].
Qed.

Lemma createRpcLogger_matches_transport_witness :
  exists id, id <> "" /\
    createRpcLogger (mkEnvironment None (Some (mkProcess true (Some ""))) "") =
      Some ("PLUGIN NODE " +:+ id +:+ ":").
Proof.
  apply (proj1 (proj2 (createRpcLogger_matches_transport
           (mkEnvironment None (Some (mkProcess true (Some ""))) "")))).
  reflexivity.
Defined.

(** ** Arrays and single records *)

(** X17.  For an array that is not empty, [mapColumnNames] does to the array
    what it does to each record alone: it returns null exactly when it
    returns null for single records, and otherwise the array of the records
    it returns for each element. *)
Theorem mapColumnNames_array_elementwise g o rs :
  rs <> [] -> elementwise g o rs (mapColumnNames g (DArray rs) o).
Proof.
  intros Hne.
  assert (Hd : DArray rs <> DArray []) by congruence.
  destruct (merged_columns g o) as [cols|] eqn:Hc.
  - destruct (merged_mappings g o) as [| |m] eqn:Hm.
    + rewrite (mapColumnNames_no_mappings _ _ _ cols) by auto. simpl.
      intros r. apply (mapColumnNames_no_mappings _ _ _ cols); auto.
    + rewrite (mapColumnNames_no_mappings _ _ _ cols) by auto. simpl.
      intros r. apply (mapColumnNames_no_mappings _ _ _ cols); auto.
    + rewrite (mapColumnNames_mapped _ _ _ cols m) by done.
      destruct (forallb _ _) eqn:Hpass; simpl.
      * eexists. split; [done|]. clear Hne Hd.
        induction rs as [|r rs IH]; [constructor|].
        rewrite map_cons. constructor; [|exact IH].
        rewrite (mapColumnNames_mapped _ _ _ cols m) by done.
        by rewrite Hpass.
      * intros r. rewrite (mapColumnNames_mapped _ _ _ cols m) by done.
        by rewrite Hpass.
  - rewrite mapColumnNames_no_columns by done. simpl.
    exists rs. split; [done|]. clear Hne Hd.
    induction rs as [|r rs IH]; constructor; [|exact IH].
    by apply mapColumnNames_no_columns.
Qed.

Lemma mapColumnNames_array_elementwise_witness :
  elementwise initial_globals (opts spec_name_email [("Name", GSingle "B")])
    [rec_ann; rec_tags]
    (mapColumnNames initial_globals (DArray [rec_ann; rec_tags])
       (opts spec_name_email [("Name", GSingle "B")])).
Proof.
  apply (mapColumnNames_array_elementwise initial_globals
           (opts spec_name_email [("Name", GSingle "B")]) [rec_ann; rec_tags]).
  discriminate.
Defined.
